(** * Extractor: the CSV pipeline of [extractor.py]

    A shallow embedding of the logic of [extractor.py]: [parse_csv]
    (fence and blank-line stripping followed by [csv.reader] and the
    blank-row filter) and the part of [run_extraction] that follows the
    model call (header selection, column projection, reporting).

    Python strings are sequences of Unicode code points; they are modelled
    as lists of code points.  The calls into the Python runtime that the
    program makes ([str.splitlines], [str.strip], [str.startswith],
    [csv.reader] with its default dialect) are modelled after CPython. *)

From Stdlib Require Import String Ascii List NArith Arith Bool Lia Sorted.
From Equations Require Import Equations.
From ITree Require Import ITree ITreeFacts.
Import ListNotations.

Set Implicit Arguments.

(** ** Python values *)

Module Py.

(** A character is a Unicode code point. *)
Definition char : Type := N.
Definition str : Type := list char.

(** ASCII literals. *)
Definition lit (s : string) : str :=
  List.map N_of_ascii (list_ascii_of_string s).

Definition LF : char := 10%N.
Definition CR : char := 13%N.
Definition SPACE : char := 32%N.
Definition DQUOTE : char := 34%N.
Definition COMMA : char := 44%N.
Definition BACKTICK : char := 96%N.
Definition EN_DASH : char := 8211%N.

(** [s1 == s2] on strings. *)
Fixpoint str_eqb (s1 s2 : str) : bool :=
  match s1, s2 with
  | [], [] => true
  | c1 :: r1, c2 :: r2 => N.eqb c1 c2 && str_eqb r1 r2
  | _, _ => false
  end.

(** [x in l] for a list [l] of strings: the elements are compared
    with [==] from left to right. *)
Fixpoint contains (x : str) (l : list str) : bool :=
  match l with
  | [] => false
  | y :: rest => str_eqb y x || contains x rest
  end.

(** Truth value of a string: [not s] holds for the empty string only. *)
Definition truthy (s : str) : bool :=
  match s with [] => false | _ :: _ => true end.

(** [any(f(x) for x in l)]. *)
Fixpoint any {A} (f : A -> bool) (l : list A) : bool :=
  match l with
  | [] => false
  | x :: rest => if f x then true else any f rest
  end.

(** [Py_UNICODE_ISSPACE]: the characters [str.strip()] removes. *)
Definition isspace (c : char) : bool :=
  ((9 <=? c) && (c <=? 13) || (28 <=? c) && (c <=? 32)
   || (c =? 133) || (c =? 160) || (c =? 5760)
   || (8192 <=? c) && (c <=? 8202)
   || (c =? 8232) || (c =? 8233) || (c =? 8239) || (c =? 8287)
   || (c =? 12288))%N.

(** [Py_UNICODE_ISLINEBREAK]: the line boundaries of [str.splitlines()]. *)
Definition islinebreak (c : char) : bool :=
  ((10 <=? c) && (c <=? 13) || (28 <=? c) && (c <=? 30)
   || (c =? 133) || (c =? 8232) || (c =? 8233))%N.

(** [s.lstrip()]. *)
Fixpoint lstrip (s : str) : str :=
  match s with
  | [] => []
  | c :: rest => if isspace c then lstrip rest else s
  end.

(** [s.rstrip()]. *)
Definition rstrip (s : str) : str := rev (lstrip (rev s)).

(** [s.strip()]: whitespace is removed from the left end, then from
    the right end. *)
Definition strip (s : str) : str := rstrip (lstrip s).

(** [s.startswith(prefix)]. *)
Fixpoint startswith (s prefix : str) : bool :=
  match prefix, s with
  | [], _ => true
  | p :: prefix', c :: s' => N.eqb c p && startswith s' prefix'
  | _ :: _, [] => false
  end.

(** [s.splitlines()].  [cur] holds the characters of the line being
    read, last one first.  A line ends at a line break, CR LF
    counting as one; the text after the last line break is a line only
    when it is not empty. *)
Fixpoint splitlines_from (cur : str) (s : str) : list str :=
  match s with
  | [] => match cur with [] => [] | _ :: _ => [rev cur] end
  | c :: rest =>
      if islinebreak c then
        rev cur ::
          match rest with
          | c' :: rest' =>
              if N.eqb c CR && N.eqb c' LF
              then splitlines_from [] rest'
              else splitlines_from [] rest
          | [] => splitlines_from [] rest
          end
      else splitlines_from (c :: cur) rest
  end.

Definition splitlines (s : str) : list str := splitlines_from [] s.

(** [l[start:stop]] for non-negative bounds. *)
Definition slice {A} (start stop : nat) (l : list A) : list A :=
  firstn (stop - start) (skipn start l).

(** [enumerate(l, start)]; [start] is 0 when it is not given. *)
Fixpoint enumerate {A} (l : list A) (start : nat) : list (nat * A) :=
  match l with
  | [] => []
  | x :: rest => (start, x) :: enumerate rest (S start)
  end.

(** Exceptions, with the message [str(e)] shows. *)
Inductive exn : Type :=
| ValueError (msg : str)
| IndexError (msg : str)
| csv_Error (msg : str)
| Exception (msg : str).

Definition exn_str (e : exn) : str :=
  match e with
  | ValueError msg | IndexError msg | csv_Error msg | Exception msg => msg
  end.

(** The outcome of a call: a value, or an exception raised. *)
Inductive result (A : Type) : Type :=
| OK (a : A)
| Raise (e : exn).
Arguments Raise {A} e.

Definition bind {A B} (r : result A) (k : A -> result B) : result B :=
  match r with
  | OK a => k a
  | Raise e => Raise e
  end.

End Py.

Import Py.

Declare Scope py_scope.
Delimit Scope py_scope with py.
Notation "'let?' x ':=' e 'in' k" := (Py.bind e (fun x => k))
  (at level 10, x name, e at level 100, k at level 200) : py_scope.
Local Open Scope py_scope.

(** ** [csv.reader]

    [csv.reader(lines)] is called with the default dialect, [excel]:
    delimiter comma, quotechar the double quote, [doublequote] on, no
    [escapechar], [skipinitialspace] off, [strict] off, [QUOTE_MINIMAL].
    The model follows the reader of CPython's [_csv] module (version 3.11
    and later, where NUL is a character like any other) with these
    settings; the parser states that only an escape character reaches are
    left out. *)

Module Csv.

Inductive ParserState : Type :=
| START_RECORD
| START_FIELD
| IN_FIELD
| IN_QUOTED_FIELD
| QUOTE_IN_QUOTED_FIELD
| EAT_CRNL.

Definition state_eqb (a b : ParserState) : bool :=
  match a, b with
  | START_RECORD, START_RECORD
  | START_FIELD, START_FIELD
  | IN_FIELD, IN_FIELD
  | IN_QUOTED_FIELD, IN_QUOTED_FIELD
  | QUOTE_IN_QUOTED_FIELD, QUOTE_IN_QUOTED_FIELD
  | EAT_CRNL, EAT_CRNL => true
  | _, _ => false
  end.

(** What the parser is fed: a character of the line, or the end of
    line mark that follows every line. *)
Inductive symbol : Type :=
| Chr (c : char)
| EOL.

(** [csv.field_size_limit()], which the program leaves at its default. *)
Definition field_limit : N := 131072%N.

Definition field_limit_msg : str :=
  lit "field larger than field limit (131072)".

(** The message of CPython 3.11; later versions word the question
    differently. *)
Definition newline_msg : str :=
  lit "new-line character seen in unquoted field - "
    ++ lit "do you need to open the file in universal-newline mode?".

(** The reader object: parser state, the fields of the record being
    read, and the buffer of the field being read with its length. *)
Record ReaderObj : Type := mkReader {
  state : ParserState;
  fields : list str;
  field : str;
  field_len : N
}.

Definition set_state (st : ParserState) (r : ReaderObj) : ReaderObj :=
  mkReader st (fields r) (field r) (field_len r).

Definition parse_reset : ReaderObj := mkReader START_RECORD [] [] 0%N.

(** The field buffer becomes a field of the record. *)
Definition parse_save_field (r : ReaderObj) : ReaderObj :=
  mkReader (state r) (fields r ++ [field r]) [] 0%N.

Definition parse_add_char (r : ReaderObj) (c : char) : result ReaderObj :=
  if (field_limit <=? field_len r)%N
  then Raise (csv_Error field_limit_msg)
  else OK (mkReader (state r) (fields r) (field r ++ [c]) (field_len r + 1)%N).

Definition is_newline (c : char) : bool := N.eqb c LF || N.eqb c CR.

(** After the end of a record: back to [START_RECORD] at the end of
    the line, and to [EAT_CRNL] after a new-line character. *)
Definition after_record (s : symbol) : ParserState :=
  match s with EOL => START_RECORD | Chr _ => EAT_CRNL end.

(** The end of a record: the field under way is saved. *)
Definition end_record (r : ReaderObj) (s : symbol) : ReaderObj :=
  set_state (after_record s) (parse_save_field r).

Definition start_field (r : ReaderObj) (s : symbol) : result ReaderObj :=
  match s with
  | EOL => OK (end_record r s)
  | Chr c =>
      if is_newline c then OK (end_record r s)
      else if N.eqb c DQUOTE then OK (set_state IN_QUOTED_FIELD r)
      else if N.eqb c COMMA then OK (parse_save_field r)
      else let? r' := parse_add_char r c in OK (set_state IN_FIELD r')
  end.

Definition parse_process_char (r : ReaderObj) (s : symbol) : result ReaderObj :=
  match state r with
  | START_RECORD =>
      match s with
      | EOL => OK r
      | Chr c =>
          if is_newline c then OK (set_state EAT_CRNL r)
          else start_field (set_state START_FIELD r) s
      end
  | START_FIELD => start_field r s
  | IN_FIELD =>
      match s with
      | EOL => OK (end_record r s)
      | Chr c =>
          if is_newline c then OK (end_record r s)
          else if N.eqb c COMMA
          then OK (set_state START_FIELD (parse_save_field r))
          else parse_add_char r c
      end
  | IN_QUOTED_FIELD =>
      match s with
      | EOL => OK r
      | Chr c =>
          if N.eqb c DQUOTE then OK (set_state QUOTE_IN_QUOTED_FIELD r)
          else parse_add_char r c
      end
  | QUOTE_IN_QUOTED_FIELD =>
      match s with
      | EOL => OK (end_record r s)
      | Chr c =>
          if N.eqb c DQUOTE then
            let? r' := parse_add_char r c in OK (set_state IN_QUOTED_FIELD r')
          else if N.eqb c COMMA
          then OK (set_state START_FIELD (parse_save_field r))
          else if is_newline c then OK (end_record r s)
          else let? r' := parse_add_char r c in OK (set_state IN_FIELD r')
      end
  | EAT_CRNL =>
      match s with
      | EOL => OK (set_state START_RECORD r)
      | Chr c =>
          if is_newline c then OK r
          else Raise (csv_Error newline_msg)
      end
  end.

(** The characters of one line, in order. *)
Fixpoint process_line (r : ReaderObj) (line : str) : result ReaderObj :=
  match line with
  | [] => OK r
  | c :: rest => let? r' := parse_process_char r (Chr c) in process_line r' rest
  end.

(** Whether a record is under way when the input ends. *)
Definition pending (r : ReaderObj) : bool :=
  negb (N.eqb (field_len r) 0) || state_eqb (state r) IN_QUOTED_FIELD.

(** The loop of [Reader_iternext]: lines are taken from the input
    until the parser is back in [START_RECORD].  The result is the
    record and the lines not yet read, or [None] when the input is
    exhausted ([StopIteration]).  When the input ends in the middle of
    a record, the field under way is saved and the record returned. *)
Fixpoint read_record (r : ReaderObj) (input_iter : list str)
  : result (option (list str * list str)) :=
  match input_iter with
  | [] =>
      if pending r then OK (Some (fields (parse_save_field r), []))
      else OK None
  | lineobj :: rest =>
      let? r1 := process_line r lineobj in
      let? r2 := parse_process_char r1 EOL in
      if state_eqb (state r2) START_RECORD
      then OK (Some (fields r2, rest))
      else read_record r2 rest
  end.

Definition Reader_iternext (input_iter : list str)
  : result (option (list str * list str)) :=
  read_record parse_reset input_iter.

(** [for row in csv.reader(lines)]: the records are taken one by one
    until the reader is exhausted; an exception ends the iteration. *)
Equations? reader_list (input_iter : list str) : result (list (list str))
  by wf (length input_iter) lt :=
  reader_list input_iter
    with Equations.Prop.Logic.inspect (Reader_iternext input_iter) := {
    | exist _ (Raise e) _ => Raise e
    | exist _ (OK None) _ => OK []
    | exist _ (OK (Some (row, rest))) Hnext =>
        let? rows := reader_list rest in OK (row :: rows) }.
Proof.
  assert (Hrec : forall lines r row' rest',
             read_record r lines = OK (Some (row', rest')) ->
             lines = [] \/ length rest' < length lines).
  { induction lines as [|l lines IH]; intros r row' rest' H; [now left | right].
    simpl in H.
    destruct (process_line r l) as [r1|]; simpl in H; [|discriminate].
    destruct (parse_process_char r1 EOL) as [r2|]; simpl in H; [|discriminate].
    destruct (state_eqb (state r2) START_RECORD).
    - injection H as _ <-. simpl. lia.
    - destruct (IH _ _ _ H) as [-> | Hlt]; simpl in *; [|lia].
      destruct (pending r2); [|discriminate].
      injection H as _ <-. simpl. lia. }
  destruct (Hrec _ _ _ _ Hnext) as [-> | Hlt]; [discriminate | exact Hlt].
Qed.

End Csv.

(** ** [parse_csv] *)

(** The fence marker of line 65. *)
Definition fence : str := [BACKTICK; BACKTICK; BACKTICK].

(** The test of line 65: [not line or line.startswith(fence)]. *)
Definition dropped (line : str) : bool :=
  negb (truthy line) || startswith line fence.

(** One turn of the loop of lines 63-67: [line] is stripped, and appended
    to [lines] unless the test of line 65 holds. *)
Definition normalize_step (lines : list str) (line : str) : list str :=
  let line := strip line in
  if dropped line then lines
  else lines ++ [line].

(** Lines 62-67: the list [lines] that is handed to [csv.reader]. *)
Definition parse_csv_lines (csv_text : str) : list str :=
  fold_left normalize_step (splitlines csv_text) [].

(** The condition of the comprehension of line 68:
    [any(cell.strip() for cell in row)]. *)
Definition has_content (row : list str) : bool :=
  any (fun cell => truthy (strip cell)) row.

(** Line 68: the rows of [csv.reader(lines)] that pass the condition. *)
Definition parse_csv_rows (lines : list str) : result (list (list str)) :=
  let? rows := Csv.reader_list lines in
  OK (filter has_content rows).

Definition parse_csv (csv_text : str) : result (list (list str)) :=
  let lines := parse_csv_lines csv_text in
  parse_csv_rows lines.

(** The quoting of [lines] is unbalanced, in the words of the
    specification: the lines hold an odd number of double quotes. *)
Definition unbalanced_quote (lines : list str) : Prop :=
  Nat.odd (count_occ N.eq_dec (concat lines) DQUOTE) = true.

(** Splitting on line boundaries, in the words of the specification,
    stated on the text itself: [spec_lines text segs] holds when [text]
    is the lines [segs], none of which holds a line break, each followed
    by one line boundary, where CR LF counts as one boundary and not as
    two, and the last line, when it is not empty, may do without its
    boundary. *)
Inductive spec_lines : str -> list str -> Prop :=
| spec_lines_end : spec_lines [] []
| spec_lines_last (line : str) :
    line <> [] ->
    Forall (fun c => islinebreak c = false) line ->
    spec_lines line [line]
| spec_lines_break (line : str) (c : char) (rest : str) (segs : list str) :
    Forall (fun c => islinebreak c = false) line ->
    islinebreak c = true ->
    ~ (c = CR /\ exists rest', rest = LF :: rest') ->
    spec_lines rest segs ->
    spec_lines (line ++ c :: rest) (line :: segs)
| spec_lines_crlf (line rest : str) (segs : list str) :
    Forall (fun c => islinebreak c = false) line ->
    spec_lines rest segs ->
    spec_lines (line ++ CR :: LF :: rest) (line :: segs).

(** The string [s] has no white space at its left end. *)
Definition starts_clean (s : str) : Prop :=
  match s with
  | [] => True
  | c :: _ => isspace c = false
  end.

(** Trimming leading and trailing white space, in the words of the
    specification, stated on the line itself: [spec_trimmed line t]
    holds when [line] is [t] between two runs of white space, and [t]
    has no white space at either end. *)
Definition spec_trimmed (line t : str) : Prop :=
  exists l r,
    line = l ++ t ++ r
    /\ Forall (fun c => isspace c = true) l
    /\ Forall (fun c => isspace c = true) r
    /\ starts_clean t
    /\ starts_clean (rev t).

(** ** Column projection *)

(** Line 136: [[i for i, h in enumerate(headers) if h in selected]]. *)
Definition column_indices (headers selected : list str) : list nat :=
  List.map (fun ih : nat * str => let (i, _) := ih in i)
    (filter (fun ih : nat * str => let (_, h) := ih in contains h selected)
       (enumerate headers 0)).

(** Line 137: [row[i]] when [i < len(row)], the empty string
    otherwise. *)
Definition cell_at (row : list str) (i : nat) : str :=
  if i <? length row then nth i row [] else [].

(** Line 137. *)
Definition filtered_rows (idx : list nat) (rows : list (list str))
  : list (list str) :=
  List.map (fun row => List.map (cell_at row) idx) rows.

Definition index_msg : str := lit "list index out of range".

(** Lines 131, 136 and 137 as a function of [rows] and [selected].
    [rows[0]] raises [IndexError] on an empty list; [run_extraction]
    leaves at line 130 before it gets there. *)
Definition project (rows : list (list str)) (selected : list str)
  : result (list (list str)) :=
  match rows with
  | [] => Raise (IndexError index_msg)
  | headers :: _ =>
      let idx := column_indices headers selected in
      OK (filtered_rows idx rows)
  end.

(** ** [run_extraction] *)

Import ITreeNotations.
Local Open Scope itree_scope.

Module Ui.

Definition bytes : Type := list N.

(** The calls [run_extraction] makes to the rest of the application.
    Reading the image, asking the model, the dialog of [choose_headers]
    and [save_and_copy] return a value or raise.  The calls to the
    widgets of the window return nothing; where one is made inside the
    [try] block it is made through [in_try], whose answer is the value
    returned or the exception raised, which the handler of line 147
    catches.  In the handler and in the [finally] block, where no
    exception is caught, the calls are taken to return.
    [save_and_copy] gets [os.path.dirname(img_path)], the event records
    [img_path]. *)
Inductive uiE : Type -> Type :=
| read_file (img_path : str) : uiE (result bytes)
| send_to_openai (image_bytes : bytes) : uiE (result str)
| choose_headers (headers : list str) (preview_rows : list (list str))
  : uiE (result (list str))
| save_and_copy (rows : list (list str)) (img_path : str) : uiE (result str)
| table_config (columns : list str) : uiE unit
| table_heading (c text : str) : uiE unit
| table_column (c : str) (width : nat) : uiE unit
| table_insert (values : list str) : uiE unit
| set_status (msg : str) : uiE unit
| showerror (title message : str) : uiE unit
| progress_stop : uiE unit
| progress_place_forget : uiE unit
| in_try {X : Type} (call : uiE X) : uiE (result X).

Definition no_rows_msg : str :=
  lit "No rows parsed " ++ [EN_DASH]
    ++ lit " model response seems empty or malformed.".

Definition no_columns_msg : str := lit "No columns selected.".

Definition done_msg (save_path : str) : str :=
  lit "Done " ++ [EN_DASH] ++ lit " saved to " ++ save_path.

Definition error_status : str :=
  lit "Error " ++ [EN_DASH] ++ lit " see dialog".

(** A call inside [try]: an exception ends the block. *)
Definition try_bind {A B} (t : itree uiE (result A))
  (k : A -> itree uiE (result B)) : itree uiE (result B) :=
  r <- t ;;
  match r with
  | OK a => k a
  | Raise e => Ret (Raise e)
  end.

(** A call to a widget inside [try]. *)
Definition widget (call : uiE unit) : itree uiE (result unit) :=
  ITree.trigger (in_try call).

(** [for x in l: body] inside [try]: an exception of [body] ends the
    loop. *)
Fixpoint for_each {A} (l : list A) (body : A -> itree uiE (result unit))
  : itree uiE (result unit) :=
  match l with
  | [] => Ret (OK tt)
  | x :: rest => try_bind (body x) (fun _ => for_each rest body)
  end.

(** Lines 138-146, with the columns [selected] and the projected table
    [filtered]. *)
Definition save_and_show (selected : list str)
  (filtered : list (list str)) (img_path : str) : itree uiE (result unit) :=
  try_bind (ITree.trigger (save_and_copy filtered img_path))
    (fun save_path =>
       try_bind (widget (table_config selected)) (fun _ =>
       try_bind
         (for_each selected
            (fun c =>
               try_bind (widget (table_heading c c)) (fun _ =>
               widget (table_column c 120))))
         (fun _ =>
       try_bind
         (for_each (skipn 1 filtered) (fun r => widget (table_insert r)))
         (fun _ =>
       widget (set_status (done_msg save_path)))))).

(** Lines 128-146, from the model's answer [csv_raw] on. *)
Definition extraction_steps (csv_raw img_path : str)
  : itree uiE (result unit) :=
  match parse_csv csv_raw with
  | Raise e => Ret (Raise e)
  | OK rows =>
      match rows with
      | [] => Ret (Raise (ValueError no_rows_msg))
      | headers :: _ =>
          let preview_rows := slice 1 6 rows in
          try_bind (ITree.trigger (choose_headers headers preview_rows))
            (fun selected =>
               match selected with
               | [] => Ret (Raise (ValueError no_columns_msg))
               | _ :: _ =>
                   let idx := column_indices headers selected in
                   let filtered := filtered_rows idx rows in
                   save_and_show selected filtered img_path
               end)
      end
  end.

(** Lines 125-146: the [try] block. *)
Definition try_block (img_path : str) : itree uiE (result unit) :=
  try_bind (ITree.trigger (read_file img_path))
    (fun bytes_ =>
       try_bind (ITree.trigger (send_to_openai bytes_))
         (fun csv_raw => extraction_steps csv_raw img_path)).

(** Lines 147-152: the handler, entered with the exception [e] that
    ended the [try] block, and the [finally] block. *)
Definition after_try (r : result unit) : itree uiE unit :=
  match r with
  | OK _ => Ret tt
  | Raise e =>
      ITree.trigger (set_status error_status) ;;
      ITree.trigger (showerror (lit "Extraction failed") (exn_str e))
  end ;;
  ITree.trigger progress_stop ;;
  ITree.trigger progress_place_forget.

Definition run_extraction (img_path : str) : itree uiE unit :=
  r <- try_block img_path ;;
  after_try r.

End Ui.

(** ** Predicates of the statements *)

(** A line that holds no new-line character, as every line that
    [parse_csv] hands to the reader. *)
Definition no_newline (line : str) : Prop :=
  Forall (fun c => Csv.is_newline c = false) line.

(** A step of the reader either leaves it outside [EAT_CRNL] with a
    field buffer of at most [bound] characters, or raises the field
    limit error, which takes a [bound] above the limit. *)
Definition limit_or_fine (bound : N) (res : result Csv.ReaderObj) : Prop :=
  match res with
  | OK r' =>
      Csv.state r' <> Csv.EAT_CRNL /\ (Csv.field_len r' <= bound)%N
  | Raise e =>
      e = csv_Error Csv.field_limit_msg /\ (Csv.field_limit < bound)%N
  end.

(** ** The clipboard text of [save_and_copy] *)

(** [sep.join(l)]. *)
Fixpoint join (sep : str) (l : list str) : str :=
  match l with
  | [] => []
  | x :: rest =>
      match rest with
      | [] => x
      | _ :: _ => x ++ sep ++ join sep rest
      end
  end.

(** Line 77: the text that [save_and_copy] hands to [pyperclip.copy],
    the cells of a row joined by commas and the rows by new-lines. *)
Definition clipboard_text (rows : list (list str)) : str :=
  join [LF] (List.map (join [COMMA]) rows).

(** ** The result of [choose_headers] *)

(** Lines 103-107 build [vars_], one pair of a header and its variable
    for each header, in the order of the headers; a pair is modelled with
    the value the variable holds when the dialog is closed.  The headers
    of [vars_]: *)
Definition vars_headers (vars_ : list (str * bool)) : list str :=
  List.map (fun hv : str * bool => let (h, _) := hv in h) vars_.

(** Lines 115-118: the headers whose variable holds [True] are appended
    to [result] in turn. *)
Definition choose_headers_result (vars_ : list (str * bool)) : list str :=
  fold_left
    (fun result (hv : str * bool) =>
       let (h, v) := hv in if v then result ++ [h] else result)
    vars_ [].

(** ** Cells that need no quoting *)

(** A character that an unquoted field can hold. *)
Definition field_char (c : char) : Prop :=
  c <> COMMA /\ c <> DQUOTE /\ islinebreak c = false.

(** A cell that [parse_csv] reads back as it is written: it holds no
    comma, no double quote and no line break, has no white space at
    either end and is no longer than the field size limit. *)
Definition plain_cell (cell : str) : Prop :=
  Forall field_char cell
  /\ strip cell = cell
  /\ (N.of_nat (length cell) <= Csv.field_limit)%N.

(** ** Splitting at a separator *)

(** [s.split(sep)] for a separator of one character.  [cur] holds the
    characters of the piece being read, last one first. *)
Fixpoint split_from (cur : str) (sep : char) (s : str) : list str :=
  match s with
  | [] => [rev cur]
  | c :: rest =>
      if N.eqb c sep then rev cur :: split_from [] sep rest
      else split_from (c :: cur) sep rest
  end.

Definition split (sep : char) (s : str) : list str := split_from [] sep s.

(** ** Runs of [run_extraction] *)

(** A call to the rest of the application, as a run records it. *)
Inductive call : Type :=
| Call {X : Type} (e : Ui.uiE X).

(** What the rest of the application answers to each call. *)
Definition answers : Type := forall X : Type, Ui.uiE X -> X.

(** [runs o t calls r]: with the answers [o], the program [t] makes the
    calls [calls], in this order, and ends with the result [r]. *)
Inductive runs (o : answers) {R : Type}
  : itree Ui.uiE R -> list call -> R -> Prop :=
| runs_Ret (t : itree Ui.uiE R) (r : R) :
    observe t = RetF r -> runs o t [] r
| runs_Tau (t t' : itree Ui.uiE R) (calls : list call) (r : R) :
    observe t = TauF t' -> runs o t' calls r -> runs o t calls r
| runs_Vis (t : itree Ui.uiE R) (X : Type) (e : Ui.uiE X)
    (k : X -> itree Ui.uiE R) (calls : list call) (r : R) :
    observe t = VisF e k -> runs o (k (o X e)) calls r ->
    runs o t (Call e :: calls) r.

(** The calls to the result table of the window, also those made
    through [in_try]. *)
Fixpoint table_call {X : Type} (e : Ui.uiE X) : bool :=
  match e with
  | Ui.table_config _ | Ui.table_heading _ _ | Ui.table_column _ _
  | Ui.table_insert _ => true
  | Ui.in_try call => table_call call
  | _ => false
  end.

Definition updates_table (c : call) : bool :=
  match c with
  | Call e => table_call e
  end.

(** An application that answers with the content [file] of the image
    file, the reply [reply] of the model, the choice [chosen] of the
    user among the headers and the outcome [saved] of writing the
    result; a call to a widget inside [try] raises [window] when there
    is one, and returns otherwise. *)
Fixpoint script (file : result Ui.bytes) (reply : result str)
  (chosen : list str -> list str) (saved : result str)
  (window : option exn) (X : Type) (e : Ui.uiE X) {struct e} : X :=
  match e in Ui.uiE X return X with
  | Ui.read_file _ => file
  | Ui.send_to_openai _ => reply
  | Ui.choose_headers headers _ => OK (chosen headers)
  | Ui.save_and_copy _ _ => saved
  | Ui.table_config _ | Ui.table_heading _ _ | Ui.table_column _ _
  | Ui.table_insert _ | Ui.set_status _ | Ui.showerror _ _
  | Ui.progress_stop | Ui.progress_place_forget => tt
  | @Ui.in_try Y call =>
      match window with
      | Some exc => Raise exc
      | None => OK (script file reply chosen saved window call)
      end
  end.

(** The same, with widgets that return. *)
Definition scripted (file : result Ui.bytes) (reply : result str)
  (chosen : list str -> list str) (saved : result str) : answers :=
  fun X e => script file reply chosen saved None e.

(** The calls of an extraction that succeeds: the image is read and
    sent, the user chooses among the headers, the projected table [table]
    is saved, and the window shows it; then the progress bar is stopped
    and hidden. *)
Definition success_calls (img_path : str) (bytes_ : Ui.bytes)
  (headers : list str) (data : list (list str)) (selected : list str)
  (table : list (list str)) (save_path : str) : list call :=
  [Call (Ui.read_file img_path);
   Call (Ui.send_to_openai bytes_);
   Call (Ui.choose_headers headers (firstn 5 data));
   Call (Ui.save_and_copy table img_path);
   Call (Ui.in_try (Ui.table_config selected))]
    ++ flat_map
         (fun c => [Call (Ui.in_try (Ui.table_heading c c));
                    Call (Ui.in_try (Ui.table_column c 120))])
         selected
    ++ flat_map (fun r => [Call (Ui.in_try (Ui.table_insert r))])
         (skipn 1 table)
    ++ [Call (Ui.in_try (Ui.set_status (Ui.done_msg save_path)));
        Call Ui.progress_stop;
        Call Ui.progress_place_forget].

(** The calls that follow an exception [e] of the [try] block: the
    handler reports it, then the progress bar is stopped and hidden. *)
Definition failure_calls (e : exn) : list call :=
  [Call (Ui.set_status Ui.error_status);
   Call (Ui.showerror (lit "Extraction failed") (exn_str e));
   Call Ui.progress_stop;
   Call Ui.progress_place_forget].

(** Where an exception [e] that ends a run comes from: a call that the
    application answered with [e], the field size limit of the csv
    module, or one of the two checks of [run_extraction]. *)
Definition raised_by (o : answers) (calls : list call) (e : exn) : Prop :=
  (exists (X : Type) (ev : Ui.uiE (result X)),
      In (Call ev) calls /\ o _ ev = Raise e)
  \/ e = csv_Error Csv.field_limit_msg
  \/ e = ValueError Ui.no_rows_msg
  \/ e = ValueError Ui.no_columns_msg.

(** With the answers [o], the program [t] runs to its end, and an
    exception it ends with is one of [raised_by]. *)
Definition completes (o : answers) (t : itree Ui.uiE (result unit)) : Prop :=
  exists calls r,
    runs o t calls r /\ forall e, r = Raise e -> raised_by o calls e.

(** The field under way and the fields read of the reader [r] hold
    characters of [P] only. *)
Definition made_of (P : char -> Prop) (r : Csv.ReaderObj) : Prop :=
  Forall P (Csv.field r) /\ Forall (Forall P) (Csv.fields r).

(** * Properties *)

Unset Implicit Arguments.

(** ** Python values *)

Lemma str_eqb_eq (a b : str) : str_eqb a b = true <-> a = b.
Proof.
  revert b. induction a as [|c a IH]; intros [|d b]; simpl;
    try (split; [discriminate | congruence]); [tauto|].
  rewrite andb_true_iff, N.eqb_eq, IH.
  split; [intros [-> ->]; reflexivity | intros [= -> ->]; auto].
Qed.

Lemma contains_In (x : str) (l : list str) : contains x l = true <-> In x l.
Proof.
  induction l as [|y l IH]; simpl; [split; [discriminate | tauto]|].
  rewrite orb_true_iff, str_eqb_eq, IH. tauto.
Qed.

Lemma truthy_true (s : str) : truthy s = true <-> s <> [].
Proof. destruct s; simpl; split; congruence. Qed.

Lemma truthy_false (s : str) : truthy s = false <-> s = [].
Proof. destruct s; simpl; split; congruence. Qed.

Lemma any_true {A} (f : A -> bool) (l : list A) :
  any f l = true <-> exists x, In x l /\ f x = true.
Proof.
  induction l as [|y l IH]; simpl.
  - split; [discriminate | intros (x & [] & _)].
  - destruct (f y) eqn:Hy.
    + split; [eauto | reflexivity].
    + rewrite IH. split; intros (x & Hx & Hfx); [eauto|].
      destruct Hx as [-> | Hx]; [congruence | eauto].
Qed.

Lemma any_false {A} (f : A -> bool) (l : list A) :
  any f l = false <-> Forall (fun x => f x = false) l.
Proof.
  induction l as [|y l IH]; simpl.
  - split; [constructor | reflexivity].
  - destruct (f y) eqn:Hy.
    + split; [discriminate | intros H; inversion H; congruence].
    + rewrite IH. split; [now constructor | intros H; now inversion H].
Qed.

(** ** The normalizer: lines 62-67 of [parse_csv] *)

Lemma normalize_loop (l : list str) (acc : list str) :
  fold_left normalize_step l acc
  = acc ++ filter (fun line => negb (dropped line)) (List.map strip l).
Proof.
  revert acc. induction l as [|x l IH]; intros acc; simpl.
  - now rewrite app_nil_r.
  - rewrite IH. unfold normalize_step.
    destruct (dropped (strip x)); simpl;
      [reflexivity | now rewrite <- app_assoc].
Qed.

(** ** The decoder: line 68 of [parse_csv] *)

Lemma has_content_true (row : list str) :
  has_content row = true <-> exists cell, In cell row /\ strip cell <> [].
Proof.
  unfold has_content. rewrite any_true.
  split; intros (cell & Hin & H); exists cell; split; auto;
    now apply truthy_true.
Qed.

Lemma has_content_false (row : list str) :
  has_content row = false <-> Forall (fun cell => strip cell = []) row.
Proof.
  unfold has_content. rewrite any_false.
  split; intros H; eapply Forall_impl; try exact H;
    intros cell; apply truthy_false.
Qed.

(** ** Column projection: lines 136-137 of [run_extraction] *)

Section Projection.

Variable selected : list str.

(** The indices line 136 keeps, for headers numbered from [i]. *)
Abbreviation indices_from i headers :=
  (List.map (fun ih : nat * str => let (j, _) := ih in j)
     (filter (fun ih : nat * str => let (_, h) := ih in contains h selected)
        (enumerate headers i))).

Lemma indices_from_spec (headers : list str) (i j : nat) :
  In j (indices_from i headers) ->
  i <= j < i + length headers
  /\ contains (nth (j - i) headers []) selected = true.
Proof.
  revert i. induction headers as [|h headers IH]; intros i; simpl; [tauto|].
  destruct (contains h selected) eqn:Hh; simpl.
  - intros [<- | Hin].
    + rewrite Nat.sub_diag. split; [lia | exact Hh].
    + destruct (IH _ Hin) as [Hr Hc]. split; [lia|].
      replace (j - i) with (S (j - S i)) by lia. exact Hc.
  - intros Hin. destruct (IH _ Hin) as [Hr Hc]. split; [lia|].
    replace (j - i) with (S (j - S i)) by lia. exact Hc.
Qed.

Lemma indices_from_all (headers : list str) (i : nat) :
  Forall (fun h => In h selected) headers ->
  indices_from i headers = seq i (length headers).
Proof.
  revert i. induction headers as [|h headers IH]; intros i Hall;
    [reflexivity|].
  inversion Hall as [|? ? Hh Hrest]; subst.
  simpl. rewrite (proj2 (contains_In h selected) Hh). simpl.
  f_equal. apply IH, Hrest.
Qed.

Lemma column_indices_spec (headers : list str) (j : nat) :
  In j (column_indices headers selected) ->
  j < length headers /\ In (nth j headers []) selected.
Proof.
  intros Hin. destruct (indices_from_spec headers 0 j Hin) as [Hr Hc].
  rewrite Nat.sub_0_r in Hc. split; [lia | now apply contains_In].
Qed.

Lemma column_indices_all (headers : list str) :
  Forall (fun h => In h selected) headers ->
  column_indices headers selected = seq 0 (length headers).
Proof. apply indices_from_all. Qed.

End Projection.

Lemma cell_at_seq (pre row : list str) :
  List.map (cell_at (pre ++ row)) (seq (length pre) (length row)) = row.
Proof.
  revert pre. induction row as [|c row IH]; intros pre; [reflexivity|].
  simpl. f_equal.
  - unfold cell_at. rewrite length_app. simpl.
    destruct (Nat.ltb_spec (length pre) (length pre + S (length row)));
      [|lia].
    now rewrite nth_middle.
  - specialize (IH (pre ++ [c])).
    rewrite <- app_assoc, length_app, Nat.add_1_r in IH. exact IH.
Qed.

Lemma cell_at_all (row : list str) :
  List.map (cell_at row) (seq 0 (length row)) = row.
Proof. exact (cell_at_seq [] row). Qed.

Lemma filtered_rows_all (n : nat) (rows : list (list str)) :
  Forall (fun row => length row = n) rows ->
  filtered_rows (seq 0 n) rows = rows.
Proof.
  induction 1 as [|row rows Hrow _ IH]; [reflexivity|].
  unfold filtered_rows in *. simpl. rewrite IH. subst n.
  now rewrite cell_at_all.
Qed.

Lemma filtered_rows_length (idx : list nat) (rows : list (list str)) :
  Forall (fun row => length row = length idx) (filtered_rows idx rows).
Proof.
  unfold filtered_rows. apply Forall_forall. intros prow Hin.
  apply in_map_iff in Hin. destruct Hin as (row & <- & _).
  apply length_map.
Qed.

(** C10: whatever the lengths of the rows of the table, every row of the
    projected table, the header row included, has as many cells as there
    are retained column indices. *)
Theorem projected_table_is_rectangular
  (headers : list str) (data : list (list str)) (selected : list str) :
  exists table,
    project (headers :: data) selected = OK table
    /\ length table = length (headers :: data)
    /\ Forall (fun row =>
                 length row = length (column_indices headers selected))
         table.
Proof.
  eexists. split; [reflexivity|]. split.
  - unfold filtered_rows. now rewrite length_map.
  - apply filtered_rows_length.
Qed.

(** C6: when a row has fewer than [i + 1] cells, the projected row has
    the empty string at the position of the retained index [i]; the
    projection of a table with a header row always returns. *)
Theorem projection_pads_short_rows
  (rows : list (list str)) (selected : list str)
  (r k i : nat) (row : list str) :
  nth_error rows r = Some row ->
  nth_error (column_indices (hd [] rows) selected) k = Some i ->
  length row < i + 1 ->
  exists table prow,
    project rows selected = OK table
    /\ nth_error table r = Some prow
    /\ nth_error prow k = Some [].
Proof.
  intros Hrow Hidx Hshort.
  destruct rows as [|headers data]; [destruct r; discriminate|].
  simpl in Hidx.
  exists (filtered_rows (column_indices headers selected) (headers :: data)).
  exists (List.map (cell_at row) (column_indices headers selected)).
  split; [reflexivity|]. split.
  - unfold filtered_rows. rewrite nth_error_map, Hrow. reflexivity.
  - rewrite nth_error_map, Hidx. simpl. unfold cell_at.
    destruct (Nat.ltb_spec i (length row)); [lia | reflexivity].
Qed.

(** The instance of C6 on the table [[a, b], [1]] with both headers
    selected: the second cell of the second row is missing. *)
Lemma projection_pads_short_rows_witness :
  exists table prow,
    project [[lit "a"; lit "b"]; [lit "1"]] [lit "a"; lit "b"] = OK table
    /\ nth_error table 1 = Some prow
    /\ nth_error prow 1 = Some [].
Proof.
  apply (@projection_pads_short_rows
           [[lit "a"; lit "b"]; [lit "1"]] [lit "a"; lit "b"]
           1 1 1 [lit "1"]).
  - reflexivity.
  - reflexivity.
  - simpl. lia.
Defined.

(** C2 fails on a table with a short row: with every header selected,
    the row [[1]] of the table [[a, b], [1]] comes back as [1] followed by
    the empty string. *)
Lemma full_selection_changes_ragged_table :
  let t := [[lit "a"; lit "b"]; [lit "1"]] in
  let selected := [lit "a"; lit "b"] in
  (forall h, In h selected <-> In h (hd [] t))
  /\ project t selected = OK [[lit "a"; lit "b"]; [lit "1"; []]]
  /\ project t selected <> OK t.
Proof.
  simpl. split; [tauto|]. split; [reflexivity|].
  vm_compute. discriminate.
Qed.

(** C2, amended: when every row of the table has as many cells as the
    header row, projecting with the full set of header values selected
    gives back the table. *)
Theorem full_selection_is_identity
  (headers : list str) (data : list (list str)) (selected : list str) :
  (forall h, In h selected <-> In h headers) ->
  Forall (fun row => length row = length headers) data ->
  project (headers :: data) selected = OK (headers :: data).
Proof.
  intros Hsel Hrect. unfold project.
  rewrite column_indices_all.
  - rewrite filtered_rows_all; [reflexivity|].
    constructor; [reflexivity | exact Hrect].
  - apply Forall_forall. intros h Hh. now apply Hsel.
Qed.

(** The instance of the amended C2 on the table [[a, b], [1, 2]]. *)
Lemma full_selection_is_identity_witness :
  project [[lit "a"; lit "b"]; [lit "1"; lit "2"]] [lit "b"; lit "a"]
  = OK [[lit "a"; lit "b"]; [lit "1"; lit "2"]].
Proof.
  apply (@full_selection_is_identity
           [lit "a"; lit "b"] [[lit "1"; lit "2"]] [lit "b"; lit "a"]).
  - intros h. simpl. tauto.
  - repeat constructor.
Defined.

(** C7: when the selected set is the set of headers of the projected
    table, projecting the projected table again changes nothing. *)
Theorem projection_is_idempotent
  (t : list (list str)) (selected : list str) (p : list (list str)) :
  project t selected = OK p ->
  (forall h, In h selected <-> In h (hd [] p)) ->
  project p selected = OK p.
Proof.
  intros Hp _.
  destruct t as [|headers data]; [discriminate|].
  unfold project in Hp. injection Hp as <-.
  set (idx := column_indices headers selected).
  unfold project.
  change (List.map (cell_at headers) idx :: filtered_rows idx data)
    with (filtered_rows idx (headers :: data)).
  rewrite column_indices_all.
  - rewrite length_map. rewrite filtered_rows_all; [reflexivity|].
    apply filtered_rows_length.
  - apply Forall_forall. intros h Hh.
    apply in_map_iff in Hh. destruct Hh as (j & <- & Hj).
    destruct (column_indices_spec _ _ _ Hj) as [Hlt Hin].
    unfold cell_at. destruct (Nat.ltb_spec j (length headers)); [|lia].
    exact Hin.
Qed.

(** The instance of C7 on the table [[a, b], [1]] with [a] selected. *)
Lemma projection_is_idempotent_witness :
  project [[lit "a"]; [lit "1"]] [lit "a"] = OK [[lit "a"]; [lit "1"]].
Proof.
  apply (@projection_is_idempotent
           [[lit "a"; lit "b"]; [lit "1"]] [lit "a"] [[lit "a"]; [lit "1"]]).
  - reflexivity.
  - intros h. simpl. tauto.
Defined.

(** C8: the example of the specification.  The fenced text with the
    lines [Name,Age], [Alice,30] and [Bob,] is decoded to the table
    [[Name, Age], [Alice, 30], [Bob, empty]], and projecting that table on
    the selection [{Name}] gives [[Name], [Alice], [Bob]]. *)
Theorem fenced_example_decodes_and_projects :
  let raw :=
    fence ++ lit "csv" ++ [LF] ++ lit "Name,Age" ++ [LF]
      ++ lit "Alice,30" ++ [LF] ++ lit "Bob," ++ [LF] ++ fence in
  let table :=
    [[lit "Name"; lit "Age"]; [lit "Alice"; lit "30"]; [lit "Bob"; []]] in
  parse_csv raw = OK table
  /\ project table [lit "Name"]
     = OK [[lit "Name"]; [lit "Alice"]; [lit "Bob"]].
Proof. split; vm_compute; reflexivity. Qed.

(** ** The orchestration: [run_extraction] *)

Lemma firstn_min {A} (n : nat) (l : list A) :
  firstn (Nat.min n (length l)) l = firstn n l.
Proof.
  destruct (Nat.le_ge_cases n (length l)) as [H | H].
  - now rewrite Nat.min_l.
  - rewrite Nat.min_r by exact H.
    now rewrite firstn_all, firstn_all2.
Qed.

(** C9: once a table with at least one row is decoded, the next thing
    [run_extraction] does is to call [choose_headers] with the first
    row as headers and, as preview, the [min 5 n] rows that follow it,
    [n] being the number of data rows. *)
Theorem selector_gets_header_and_preview
  (csv_raw img_path : str) (headers : list str) (data : list (list str)) :
  parse_csv csv_raw = OK (headers :: data) ->
  exists k,
    eq_itree eq
      (Ui.extraction_steps csv_raw img_path)
      (Vis (Ui.choose_headers headers
              (firstn (Nat.min 5 (length data)) data)) k).
Proof.
  intros Hrows. unfold Ui.extraction_steps. rewrite Hrows.
  eexists. rewrite firstn_min.
  unfold slice. simpl skipn. simpl Nat.sub.
  unfold Ui.try_bind. rewrite bind_trigger. reflexivity.
Qed.

(** ** The reader *)

Lemma reader_list_unfold (lines : list str) :
  Csv.reader_list lines
  = match Csv.Reader_iternext lines with
    | Raise e => Raise e
    | OK None => OK []
    | OK (Some (row, rest)) =>
        let? rows := Csv.reader_list rest in OK (row :: rows)
    end.
Proof.
  funelim (Csv.reader_list lines);
    match goal with H : Csv.Reader_iternext _ = _ |- _ => rewrite H end;
    reflexivity.
Qed.

(** The record returned leaves a proper suffix of the input. *)
Lemma read_record_rest (lines : list str) (r : Csv.ReaderObj)
  (row : list str) (rest : list str) :
  Csv.read_record r lines = OK (Some (row, rest)) ->
  exists pre, lines = pre ++ rest /\ (lines <> [] -> pre <> []).
Proof.
  revert r. induction lines as [|l lines IH]; intros r H; simpl in H.
  - destruct (Csv.pending r); [|discriminate].
    injection H as _ <-. exists []. split; [reflexivity | tauto].
  - destruct (Csv.process_line r l) as [r1|]; simpl in H; [|discriminate].
    destruct (Csv.parse_process_char r1 Csv.EOL) as [r2|]; simpl in H;
      [|discriminate].
    destruct (Csv.state_eqb (Csv.state r2) Csv.START_RECORD).
    + injection H as _ <-. exists [l]. split; [reflexivity | discriminate].
    + destruct (IH _ H) as (pre & -> & _).
      exists (l :: pre). split; [reflexivity | discriminate].
Qed.

Lemma Reader_iternext_rest (lines : list str)
  (row : list str) (rest : list str) :
  Csv.Reader_iternext lines = OK (Some (row, rest)) ->
  exists pre, lines = pre ++ rest /\ pre <> [].
Proof.
  intros H. destruct lines as [|l lines]; [discriminate|].
  destruct (read_record_rest _ _ _ _ H) as (pre & Heq & Hne).
  exists pre. split; [exact Heq | apply Hne; discriminate].
Qed.

(** The only exception of the reader on lines without new-line
    characters is the one of [parse_add_char], and it takes a field of
    [field_limit] characters to raise it. *)
Lemma parse_process_char_Chr (r : Csv.ReaderObj) (c : char) :
  Csv.is_newline c = false ->
  Csv.state r <> Csv.EAT_CRNL ->
  limit_or_fine (Csv.field_len r + 1) (Csv.parse_process_char r (Csv.Chr c)).
Proof.
  intros Hc Hst. destruct r as [st fs f n]. simpl in Hst.
  unfold Csv.parse_process_char, Csv.start_field, Csv.parse_add_char.
  simpl. rewrite Hc.
  destruct st; try congruence; simpl; rewrite ?Hc;
    repeat match goal with
      | |- context [if ?b then _ else _] => destruct b eqn:?; simpl
      end;
    repeat match goal with
      | H : (_ <=? _)%N = true |- _ => apply N.leb_le in H
      | H : (_ <=? _)%N = false |- _ => apply N.leb_gt in H
      end;
    unfold Csv.field_limit in *;
    (split; [congruence | lia]).
Qed.

Lemma parse_process_char_EOL (r : Csv.ReaderObj) :
  exists r', Csv.parse_process_char r Csv.EOL = OK r'
             /\ Csv.state r' <> Csv.EAT_CRNL
             /\ (Csv.field_len r' <= Csv.field_len r)%N.
Proof.
  destruct r as [st fs f n].
  unfold Csv.parse_process_char, Csv.start_field. simpl.
  destruct st; simpl; eexists; (split; [reflexivity|]); simpl;
    (split; [congruence | lia]).
Qed.

Lemma process_line_sound (line : str) (r : Csv.ReaderObj) :
  no_newline line ->
  Csv.state r <> Csv.EAT_CRNL ->
  limit_or_fine (Csv.field_len r + N.of_nat (length line))
    (Csv.process_line r line).
Proof.
  revert r. induction line as [|c line IH]; intros r Hline Hst; simpl.
  - split; [exact Hst | lia].
  - inversion Hline as [|? ? Hc Hrest]; subst.
    pose proof (parse_process_char_Chr r c Hc Hst) as H1.
    destruct (Csv.parse_process_char r (Csv.Chr c)) as [r1|e]; simpl in *.
    + destruct H1 as [Hst1 Hlen1].
      pose proof (IH r1 Hrest Hst1) as H2.
      destruct (Csv.process_line r1 line) as [r2|e]; simpl in *;
        destruct H2; split; auto; lia.
    + destruct H1; split; auto; lia.
Qed.

Lemma read_record_sound (lines : list str) (r : Csv.ReaderObj) :
  Forall no_newline lines ->
  Csv.state r <> Csv.EAT_CRNL ->
  match Csv.read_record r lines with
  | OK _ => True
  | Raise e =>
      e = csv_Error Csv.field_limit_msg
      /\ (Csv.field_limit
          < Csv.field_len r + N.of_nat (length (concat lines)))%N
  end.
Proof.
  revert r. induction lines as [|l lines IH]; intros r Hlines Hst; simpl.
  - now destruct (Csv.pending r).
  - inversion Hlines as [|? ? Hl Hrest]; subst.
    rewrite length_app.
    pose proof (process_line_sound l r Hl Hst) as H1.
    destruct (Csv.process_line r l) as [r1|e]; simpl in *.
    + destruct H1 as [_ Hlen1].
      destruct (parse_process_char_EOL r1) as (r2 & -> & Hst2 & Hlen2).
      simpl.
      destruct (Csv.state_eqb (Csv.state r2) Csv.START_RECORD); [exact I|].
      pose proof (IH r2 Hrest Hst2) as H3.
      destruct (Csv.read_record r2 lines); [exact I|].
      destruct H3; split; auto; lia.
    + destruct H1; split; auto; lia.
Qed.

Lemma reader_list_sound (lines : list str) :
  Forall no_newline lines ->
  match Csv.reader_list lines with
  | OK _ => True
  | Raise e =>
      e = csv_Error Csv.field_limit_msg
      /\ (Csv.field_limit < N.of_nat (length (concat lines)))%N
  end.
Proof.
  remember (length lines) as n eqn:Hn.
  revert lines Hn. induction n as [n IH] using lt_wf_ind.
  intros lines -> Hlines. rewrite reader_list_unfold.
  pose proof (read_record_sound lines Csv.parse_reset Hlines) as H1.
  fold (Csv.Reader_iternext lines) in H1.
  destruct (Csv.Reader_iternext lines) as [[[row rest]|]|e] eqn:Hnext;
    [| exact I | apply H1; discriminate].
  destruct (Reader_iternext_rest _ _ _ Hnext) as (pre & -> & Hpre).
  assert (Hlt : length rest < length (pre ++ rest)).
  { rewrite length_app. destruct pre; [congruence | simpl; lia]. }
  apply Forall_app in Hlines. destruct Hlines as [_ Hrest].
  pose proof (IH _ Hlt rest eq_refl Hrest) as H2.
  destruct (Csv.reader_list rest); simpl; [exact I|].
  rewrite concat_app, length_app. destruct H2; split; auto; lia.
Qed.

(** ** The lines that reach the reader *)

Lemma is_newline_islinebreak (c : char) :
  islinebreak c = false -> Csv.is_newline c = false.
Proof.
  unfold islinebreak, Csv.is_newline, LF, CR. intros H.
  destruct (N.eqb_spec c 10) as [-> | _]; [discriminate H|].
  destruct (N.eqb_spec c 13) as [-> | _]; [discriminate H | reflexivity].
Qed.

Lemma lstrip_suffix (s : str) : exists pre, s = pre ++ lstrip s.
Proof.
  induction s as [|c s [pre IH]]; [now exists []|]. simpl.
  destruct (isspace c).
  - exists (c :: pre). simpl. now f_equal.
  - now exists [].
Qed.

Lemma lstrip_Forall (P : char -> Prop) (s : str) :
  Forall P s -> Forall P (lstrip s).
Proof.
  intros H. destruct (lstrip_suffix s) as [pre Heq].
  rewrite Heq in H. now apply Forall_app in H.
Qed.

Lemma lstrip_length (s : str) : length (lstrip s) <= length s.
Proof.
  destruct (lstrip_suffix s) as [pre Heq].
  rewrite Heq at 2. rewrite length_app. lia.
Qed.

Lemma strip_Forall (P : char -> Prop) (s : str) :
  Forall P s -> Forall P (strip s).
Proof.
  intros H. unfold strip, rstrip.
  apply Forall_rev, lstrip_Forall, Forall_rev, lstrip_Forall, H.
Qed.

Lemma strip_length (s : str) : length (strip s) <= length s.
Proof.
  unfold strip, rstrip. rewrite length_rev.
  etransitivity; [apply lstrip_length|].
  rewrite length_rev. apply lstrip_length.
Qed.

Lemma splitlines_from_sound (s cur : str) :
  Forall (fun c => islinebreak c = false) cur ->
  Forall (Forall (fun c => islinebreak c = false)) (splitlines_from cur s)
  /\ length (concat (splitlines_from cur s)) <= length cur + length s.
Proof.
  remember (length s) as n eqn:Hn.
  revert s cur Hn. induction n as [n IH] using lt_wf_ind.
  intros [|c rest] cur -> Hcur; simpl.
  - destruct cur as [|c cur'] eqn:Ecur; simpl.
    + split; [constructor | lia].
    + rewrite app_nil_r, length_app, length_rev. simpl.
      split; [|lia]. constructor; [|constructor].
      change (rev cur' ++ [c]) with (rev (c :: cur')). now apply Forall_rev.
  - destruct (islinebreak c) eqn:Hc.
    + assert (Hrest : forall s', length s' <= length rest ->
                Forall (Forall (fun c => islinebreak c = false))
                  (splitlines_from [] s')
                /\ length (concat (splitlines_from [] s')) <= length s').
      { intros s' Hle.
        apply (IH (length s')); [simpl; lia | reflexivity | constructor]. }
      assert (Hgoal : forall s', length s' <= length rest ->
                Forall (Forall (fun c => islinebreak c = false))
                  (rev cur :: splitlines_from [] s')
                /\ length (concat (rev cur :: splitlines_from [] s'))
                   <= length cur + S (length rest)).
      { intros s' Hle. destruct (Hrest s' Hle) as [HF HL]. split.
        - constructor; [now apply Forall_rev | exact HF].
        - simpl. rewrite length_app, length_rev. lia. }
      destruct rest as [|c' rest']; [apply Hgoal; simpl; lia|].
      destruct (N.eqb c CR && N.eqb c' LF); apply Hgoal; simpl; lia.
    + destruct (IH (length rest) (Nat.lt_succ_diag_r _) rest (c :: cur)
                  eq_refl) as [HF HL]; [now constructor|].
      split; [exact HF | simpl in HL; lia].
Qed.

Lemma concat_filter_length (keep : str -> bool) (l : list str) :
  length (concat (filter keep l)) <= length (concat l).
Proof.
  induction l as [|x l IH]; simpl; [lia|].
  destruct (keep x); simpl; rewrite ?length_app; lia.
Qed.

Lemma concat_strip_length (l : list str) :
  length (concat (List.map strip l)) <= length (concat l).
Proof.
  induction l as [|x l IH]; simpl; [lia|].
  rewrite !length_app. pose proof (strip_length x). lia.
Qed.

Lemma parse_csv_lines_sound (csv_text : str) :
  Forall no_newline (parse_csv_lines csv_text)
  /\ length (concat (parse_csv_lines csv_text)) <= length csv_text.
Proof.
  unfold parse_csv_lines. rewrite normalize_loop. simpl.
  destruct (splitlines_from_sound csv_text [] (Forall_nil _)) as [HF HL].
  fold (splitlines csv_text) in HF, HL. split.
  - apply Forall_forall. intros line Hin.
    apply filter_In in Hin. destruct Hin as [Hin _].
    apply in_map_iff in Hin. destruct Hin as (raw & <- & Hraw).
    apply strip_Forall.
    eapply Forall_impl; [apply is_newline_islinebreak|].
    revert raw Hraw. now apply Forall_forall.
  - etransitivity; [apply concat_filter_length|].
    etransitivity; [apply concat_strip_length|]. simpl in HL. exact HL.
Qed.

(** [parse_csv] raises nothing but the field limit error of the csv
    module, and only on a text longer than the limit. *)
Lemma parse_csv_sound (csv_text : str) :
  match parse_csv csv_text with
  | OK _ => True
  | Raise e =>
      e = csv_Error Csv.field_limit_msg
      /\ (Csv.field_limit < N.of_nat (length csv_text))%N
  end.
Proof.
  destruct (parse_csv_lines_sound csv_text) as [HF HL].
  pose proof (reader_list_sound _ HF) as H.
  unfold parse_csv, parse_csv_rows.
  destruct (Csv.reader_list (parse_csv_lines csv_text)); simpl; [exact I|].
  destruct H; split; auto; lia.
Qed.

(** ** Unbalanced quotes *)

Lemma process_line_in_quoted_field (line : str) (r : Csv.ReaderObj) :
  Csv.state r = Csv.IN_QUOTED_FIELD ->
  ~ In DQUOTE line ->
  (Csv.field_len r + N.of_nat (length line) <= Csv.field_limit)%N ->
  Csv.process_line r line
  = OK (Csv.mkReader Csv.IN_QUOTED_FIELD (Csv.fields r)
          (Csv.field r ++ line)
          (Csv.field_len r + N.of_nat (length line))).
Proof.
  revert r. induction line as [|c line IH]; intros [st fs f n] Hst Hq Hlen;
    simpl in *; subst st.
  - now rewrite app_nil_r, N.add_0_r.
  - unfold Csv.parse_process_char, Csv.parse_add_char. simpl.
    destruct (N.eqb_spec c DQUOTE) as [-> | _]; [tauto|].
    destruct (N.leb_spec Csv.field_limit n); [lia|]. simpl.
    rewrite IH; simpl; [|reflexivity | tauto | lia].
    rewrite <- app_assoc. simpl. do 2 f_equal. lia.
Qed.

(** A quoted field that is open when a line ends goes on with the next
    lines, nothing in between, and is closed by the end of the input:
    the record is returned with it as its last field. *)
Lemma open_quoted_field_runs_to_end_of_input
  (lines : list str) (r : Csv.ReaderObj) :
  Csv.state r = Csv.IN_QUOTED_FIELD ->
  Forall (fun line => ~ In DQUOTE line) lines ->
  (Csv.field_len r + N.of_nat (length (concat lines)) <= Csv.field_limit)%N ->
  Csv.read_record r lines
  = OK (Some (Csv.fields r ++ [Csv.field r ++ concat lines], [])).
Proof.
  revert r. induction lines as [|l lines IH]; intros r Hst Hq Hlen; simpl.
  - unfold Csv.pending. rewrite Hst, orb_true_r, app_nil_r. reflexivity.
  - inversion Hq as [|? ? Hl Hrest]; subst.
    simpl in Hlen. rewrite length_app in Hlen.
    rewrite process_line_in_quoted_field by (auto; lia). simpl.
    rewrite IH; simpl; [|reflexivity | exact Hrest | lia].
    now rewrite <- app_assoc.
Qed.

(** C1 fails: in the text of the two lines [Name,'Age] and [1,2], where
    ['] stands for the double quote, the second line is read as the rest
    of the quoted field, and the decoder returns a table of
    one row instead of failing. *)
Lemma unbalanced_quote_is_decoded :
  let raw := lit "Name," ++ [DQUOTE] ++ lit "Age" ++ [LF] ++ lit "1,2" in
  parse_csv_lines raw = [lit "Name," ++ [DQUOTE] ++ lit "Age"; lit "1,2"]
  /\ unbalanced_quote (parse_csv_lines raw)
  /\ parse_csv raw = OK [[lit "Name"; lit "Age1,2"]]
  /\ (forall e, parse_csv raw <> Raise e).
Proof.
  repeat split; try (vm_compute; reflexivity).
  intros e. vm_compute. discriminate.
Qed.

(** C1, amended: on a text whose lines hold an unbalanced double quote
    [parse_csv] raises no quoting error.  It returns a table whenever
    the text has no more characters than the field size limit of the
    csv module, and the only exception it raises on a longer text is the
    [csv.Error] of that limit. *)
Theorem unbalanced_quote_raises_no_quoting_error (csv_text : str) :
  unbalanced_quote (parse_csv_lines csv_text) ->
  (forall e, parse_csv csv_text = Raise e ->
             e = csv_Error Csv.field_limit_msg
             /\ (Csv.field_limit < N.of_nat (length csv_text))%N)
  /\ ((N.of_nat (length csv_text) <= Csv.field_limit)%N ->
      exists table, parse_csv csv_text = OK table).
Proof.
  intros _. pose proof (parse_csv_sound csv_text) as H.
  destruct (parse_csv csv_text) as [table|e].
  - split; [discriminate | eauto].
  - split; [intros e' [= <-]; exact H | destruct H; lia].
Qed.

(** The instance of the amended C1 on the same two lines. *)
Lemma unbalanced_quote_raises_no_quoting_error_witness :
  let raw := lit "Name," ++ [DQUOTE] ++ lit "Age" ++ [LF] ++ lit "1,2" in
  (forall e, parse_csv raw = Raise e ->
             e = csv_Error Csv.field_limit_msg
             /\ (Csv.field_limit < N.of_nat (length raw))%N)
  /\ ((N.of_nat (length raw) <= Csv.field_limit)%N ->
      exists table, parse_csv raw = OK table).
Proof.
  apply (unbalanced_quote_raises_no_quoting_error
           (lit "Name," ++ [DQUOTE] ++ lit "Age" ++ [LF] ++ lit "1,2")).
  vm_compute. reflexivity.
Defined.

(** ** The empty table *)

Lemma reader_list_nil : Csv.reader_list [] = OK [].
Proof. rewrite reader_list_unfold. reflexivity. Qed.

Lemma extraction_steps_no_rows (csv_raw img_path : str) :
  eq_itree eq (Ui.extraction_steps csv_raw img_path)
    (Ret (Raise (ValueError Ui.no_rows_msg)))
  <-> parse_csv csv_raw = OK [].
Proof.
  unfold Ui.extraction_steps.
  pose proof (parse_csv_sound csv_raw) as Hsound.
  destruct (parse_csv csv_raw) as [[|headers data]|e].
  - split; reflexivity.
  - split; [|discriminate]. intros H. unfold Ui.try_bind in H.
    rewrite bind_trigger in H. apply eqit_inv in H. contradiction H.
  - split; [|discriminate]. intros H.
    apply eqit_inv_Ret in H. destruct Hsound as [-> _]. discriminate H.
Qed.

(** C4: when every line of the text is blank or begins with the fence
    marker once stripped, no line is handed to the reader and
    [run_extraction] raises the [ValueError] of line 130, which its
    handler reports; and that error is raised exactly when [parse_csv]
    returns a table without rows. *)
Theorem no_usable_rows_is_an_error (csv_raw img_path : str) :
  (Forall (fun line => strip line = []
                       \/ startswith (strip line) fence = true)
     (splitlines csv_raw) ->
   parse_csv_lines csv_raw = []
   /\ eq_itree eq (Ui.extraction_steps csv_raw img_path)
        (Ret (Raise (ValueError Ui.no_rows_msg))))
  /\ (eq_itree eq (Ui.extraction_steps csv_raw img_path)
        (Ret (Raise (ValueError Ui.no_rows_msg)))
      <-> parse_csv csv_raw = OK [])
  /\ (parse_csv csv_raw = OK [] ->
      eq_itree eq
        (ITree.bind (Ui.extraction_steps csv_raw img_path) Ui.after_try)
        (Vis (Ui.set_status Ui.error_status) (fun _ =>
         Vis (Ui.showerror (lit "Extraction failed") Ui.no_rows_msg) (fun _ =>
         Vis Ui.progress_stop (fun _ =>
         Vis Ui.progress_place_forget (fun _ => Ret tt)))))).
Proof.
  split; [|split; [apply extraction_steps_no_rows|]].
  - intros Hall.
    assert (Hlines : parse_csv_lines csv_raw = []).
    { unfold parse_csv_lines. rewrite normalize_loop. simpl.
      induction Hall as [|line lines Hline _ IH]; [reflexivity|].
      simpl. rewrite IH.
      assert (Hd : dropped (strip line) = true).
      { unfold dropped. apply orb_true_iff.
        destruct Hline as [-> | ->]; [now left | now right]. }
      now rewrite Hd. }
    split; [exact Hlines|].
    apply extraction_steps_no_rows.
    unfold parse_csv, parse_csv_rows. rewrite Hlines, reader_list_nil.
    reflexivity.
  - intros Hrows. unfold Ui.extraction_steps. rewrite Hrows.
    rewrite bind_ret_l. unfold Ui.after_try. cbn [exn_str].
    rewrite bind_bind, bind_trigger.
    apply eqit_Vis. intros [].
    rewrite bind_trigger. apply eqit_Vis. intros [].
    rewrite bind_trigger. apply eqit_Vis. intros [].
    unfold ITree.trigger. apply eqit_Vis. intros []. reflexivity.
Qed.

(** The instance of C4 on a text of a fence line, a blank line and a
    fence line. *)
Lemma no_usable_rows_is_an_error_witness :
  let raw := fence ++ lit "csv" ++ [LF] ++ lit "  " ++ [LF] ++ fence in
  parse_csv_lines raw = []
  /\ eq_itree eq (Ui.extraction_steps raw (lit "table.png"))
       (Ret (Raise (ValueError Ui.no_rows_msg))).
Proof.
  apply (proj1 (no_usable_rows_is_an_error
                  (fence ++ lit "csv" ++ [LF] ++ lit "  " ++ [LF] ++ fence)
                  (lit "table.png"))).
  constructor; [right; reflexivity|].
  constructor; [left; reflexivity|].
  constructor; [right; reflexivity|].
  constructor.
Defined.

(** The instance of C9 on the text of the lines [Name,Age] and
    [Alice,30]. *)
Lemma selector_gets_header_and_preview_witness :
  exists k,
    eq_itree eq
      (Ui.extraction_steps
         (lit "Name,Age" ++ [LF] ++ lit "Alice,30") (lit "table.png"))
      (Vis (Ui.choose_headers [lit "Name"; lit "Age"]
              (firstn (Nat.min 5 (length [[lit "Alice"; lit "30"]]))
                 [[lit "Alice"; lit "30"]])) k).
Proof.
  apply (selector_gets_header_and_preview
           (lit "Name,Age" ++ [LF] ++ lit "Alice,30") (lit "table.png")
           [lit "Name"; lit "Age"] [[lit "Alice"; lit "30"]]).
  vm_compute. reflexivity.
Defined.

(** * Further properties *)

(** ** The retained columns *)

Lemma indices_from_complete (selected headers : list str) (i j : nat) :
  i <= j < i + length headers ->
  contains (nth (j - i) headers []) selected = true ->
  In j (List.map (fun ih : nat * str => let (j, _) := ih in j)
          (filter
             (fun ih : nat * str => let (_, h) := ih in contains h selected)
             (enumerate headers i))).
Proof.
  revert i. induction headers as [|h headers IH]; intros i Hr Hc; simpl in *;
    [lia|].
  destruct (Nat.eq_dec j i) as [-> | Hne].
  - rewrite Nat.sub_diag in Hc. rewrite Hc. now left.
  - assert (Hin : In j (List.map
                          (fun ih : nat * str => let (j, _) := ih in j)
                          (filter
                             (fun ih : nat * str =>
                                let (_, h) := ih in contains h selected)
                             (enumerate headers (S i))))).
    { apply IH; [lia|].
      replace (j - i) with (S (j - S i)) in Hc by lia. exact Hc. }
    destruct (contains h selected); simpl; auto.
Qed.

Lemma indices_from_sorted (selected headers : list str) (i : nat) :
  StronglySorted lt
    (List.map (fun ih : nat * str => let (j, _) := ih in j)
       (filter
          (fun ih : nat * str => let (_, h) := ih in contains h selected)
          (enumerate headers i))).
Proof.
  revert i. induction headers as [|h headers IH]; intros i; simpl;
    [constructor|].
  destruct (contains h selected); simpl; [|apply IH].
  constructor; [apply IH|].
  apply Forall_forall. intros j Hj.
  apply indices_from_spec in Hj. lia.
Qed.

(** X1: the indices that line 136 retains are those of the headers that
    are members of [selected], each once, in increasing order, whatever
    the order and the repetitions of [selected]. *)
Theorem column_indices_increasing_and_exact (headers selected : list str) :
  StronglySorted lt (column_indices headers selected)
  /\ forall i, In i (column_indices headers selected)
               <-> i < length headers /\ In (nth i headers []) selected.
Proof.
  split; [apply indices_from_sorted|].
  intros i. split.
  - apply column_indices_spec.
  - intros [Hlt Hin]. apply indices_from_complete; [lia|].
    rewrite Nat.sub_0_r. now apply contains_In.
Qed.

Lemma contains_ext (s s' : list str) :
  (forall h, In h s <-> In h s') ->
  forall h, contains h s = contains h s'.
Proof.
  intros Hs h.
  destruct (contains h s) eqn:H1, (contains h s') eqn:H2; try reflexivity.
  - apply contains_In, Hs, contains_In in H1. congruence.
  - apply contains_In, Hs, contains_In in H2. congruence.
Qed.

(** X2: the projection depends on the members of [selected] only: two
    selections with the same members, in any order and with any
    repetitions, give the same result. *)
Theorem projection_depends_on_members_only
  (rows : list (list str)) (s s' : list str) :
  (forall h, In h s <-> In h s') ->
  project rows s = project rows s'.
Proof.
  intros Hs. destruct rows as [|headers data]; [reflexivity|].
  unfold project, column_indices. do 3 f_equal.
  apply filter_ext. intros [i h]. now apply contains_ext.
Qed.

(** The instance of X2 on a selection and its reverse. *)
Lemma projection_depends_on_members_only_witness :
  project [[lit "a"; lit "b"]; [lit "1"; lit "2"]] [lit "a"; lit "b"]
  = project [[lit "a"; lit "b"]; [lit "1"; lit "2"]]
      [lit "b"; lit "a"; lit "b"].
Proof.
  apply (projection_depends_on_members_only
           [[lit "a"; lit "b"]; [lit "1"; lit "2"]]
           [lit "a"; lit "b"] [lit "b"; lit "a"; lit "b"]).
  intros h. simpl. tauto.
Defined.

Lemma header_cells_from (selected pre headers : list str) :
  List.map (cell_at (pre ++ headers))
    (List.map (fun ih : nat * str => let (j, _) := ih in j)
       (filter
          (fun ih : nat * str => let (_, h) := ih in contains h selected)
          (enumerate headers (length pre))))
  = filter (fun h => contains h selected) headers.
Proof.
  revert pre. induction headers as [|h headers IH]; intros pre;
    [reflexivity|].
  assert (Htail :
            List.map (cell_at (pre ++ h :: headers))
              (List.map (fun ih : nat * str => let (j, _) := ih in j)
                 (filter
                    (fun ih : nat * str =>
                       let (_, h) := ih in contains h selected)
                    (enumerate headers (S (length pre)))))
            = filter (fun h => contains h selected) headers).
  { specialize (IH (pre ++ [h])).
    rewrite <- app_assoc, length_app, Nat.add_1_r in IH. exact IH. }
  simpl. destruct (contains h selected); simpl; [|exact Htail].
  f_equal; [|exact Htail].
  unfold cell_at. rewrite length_app. simpl.
  destruct (Nat.ltb_spec (length pre) (length pre + S (length headers)));
    [|lia].
  now rewrite nth_middle.
Qed.

(** X3: the header row of the projected table holds the headers that
    are members of [selected], in the order of the header row of the
    table; the order of [selected] plays no part. *)
Theorem projected_header_row
  (headers : list str) (data : list (list str)) (selected : list str) :
  exists pdata,
    project (headers :: data) selected
    = OK (filter (fun h => contains h selected) headers :: pdata)
    /\ forall h, In h (filter (fun h => contains h selected) headers)
                 <-> In h headers /\ In h selected.
Proof.
  exists (filtered_rows (column_indices headers selected) data). split.
  - unfold project, filtered_rows. simpl. do 2 f_equal.
    apply (header_cells_from selected [] headers).
  - intros h. rewrite filter_In, contains_In. tauto.
Qed.

(** X4: a cell that the row has at a retained index is copied to the
    projected row as it is. *)
Theorem projection_copies_present_cells
  (rows : list (list str)) (selected : list str)
  (r k i : nat) (row : list str) (cell : str) :
  nth_error rows r = Some row ->
  nth_error (column_indices (hd [] rows) selected) k = Some i ->
  nth_error row i = Some cell ->
  exists table prow,
    project rows selected = OK table
    /\ nth_error table r = Some prow
    /\ nth_error prow k = Some cell.
Proof.
  intros Hrow Hidx Hcell.
  destruct rows as [|headers data]; [destruct r; discriminate|].
  simpl in Hidx.
  exists (filtered_rows (column_indices headers selected) (headers :: data)).
  exists (List.map (cell_at row) (column_indices headers selected)).
  split; [reflexivity|]. split.
  - unfold filtered_rows. rewrite nth_error_map, Hrow. reflexivity.
  - rewrite nth_error_map, Hidx. simpl. unfold cell_at.
    assert (Hlt : i < length row).
    { apply nth_error_Some. congruence. }
    destruct (Nat.ltb_spec i (length row)); [|lia].
    f_equal. now apply nth_error_nth.
Qed.

(** The instance of X4 on the table [[a, b], [1, 2]] with [b] selected. *)
Lemma projection_copies_present_cells_witness :
  exists table prow,
    project [[lit "a"; lit "b"]; [lit "1"; lit "2"]] [lit "b"] = OK table
    /\ nth_error table 1 = Some prow
    /\ nth_error prow 0 = Some (lit "2").
Proof.
  apply (projection_copies_present_cells
           [[lit "a"; lit "b"]; [lit "1"; lit "2"]] [lit "b"]
           1 0 1 [lit "1"; lit "2"] (lit "2")); reflexivity.
Defined.

(** ** Projections in sequence *)

Section Composition.

Abbreviation index_of := (fun ih : nat * str => let (j, _) := ih in j).
Abbreviation header_of := (fun ih : nat * str => let (_, h) := ih in h).
Abbreviation member_of s :=
  (fun ih : nat * str => let (_, h) := ih in contains h s).

Lemma enumerate_headers (headers : list str) (i : nat) :
  List.map header_of (enumerate headers i) = headers.
Proof.
  revert i. induction headers as [|h headers IH]; intros i; simpl;
    [reflexivity | now rewrite IH].
Qed.

Lemma filter_member_headers (s : list str) (l : list (nat * str)) :
  List.map header_of (filter (member_of s) l)
  = filter (fun h => contains h s) (List.map header_of l).
Proof.
  induction l as [|[i h] l IH]; simpl; [reflexivity|].
  destruct (contains h s); simpl; now rewrite IH.
Qed.

Lemma filter_member_twice (s s' s'' : list str) (l : list (nat * str)) :
  (forall h, contains h s'' = contains h s && contains h s') ->
  filter (member_of s') (filter (member_of s) l) = filter (member_of s'') l.
Proof.
  intros Hs. induction l as [|[i h] l IH]; simpl; [reflexivity|].
  rewrite Hs. destruct (contains h s); simpl; [|exact IH].
  destruct (contains h s'); simpl; now rewrite IH.
Qed.

(** The positions, counted from [j], of the pairs whose header is a
    member of [s'] lead back to the indices of these pairs. *)
Lemma positions_of_members (s' : list str) (l : list (nat * str)) (j : nat) :
  List.map (fun k => nth (k - j) (List.map index_of l) 0)
    (List.map index_of
       (filter (member_of s') (enumerate (List.map header_of l) j)))
  = List.map index_of (filter (member_of s') l).
Proof.
  revert j. induction l as [|[i h] l IH]; intros j; [reflexivity|].
  assert (Htail :
            List.map (fun k => nth (k - j) (i :: List.map index_of l) 0)
              (List.map index_of
                 (filter (member_of s')
                    (enumerate (List.map header_of l) (S j))))
            = List.map index_of (filter (member_of s') l)).
  { rewrite <- (IH (S j)). apply List.map_ext_in. intros k Hk.
    apply indices_from_spec in Hk.
    replace (k - j) with (S (k - S j)) by lia. reflexivity. }
  simpl. destruct (contains h s'); simpl; [|exact Htail].
  rewrite Nat.sub_diag. simpl. f_equal. exact Htail.
Qed.

Lemma cell_at_projected (row : list str) (idx : list nat) (k : nat) :
  k < length idx ->
  cell_at (List.map (cell_at row) idx) k = cell_at row (nth k idx 0).
Proof.
  intros Hk. unfold cell_at at 1. rewrite length_map.
  destruct (Nat.ltb_spec k (length idx)); [|lia].
  rewrite nth_indep with (d' := cell_at row 0) by (now rewrite length_map).
  apply map_nth.
Qed.

End Composition.

(** X5: projecting a projected table is projecting the table once, on
    the headers that are members of both selections. *)
Theorem projection_composes
  (t : list (list str)) (s s' s'' : list str) (p : list (list str)) :
  project t s = OK p ->
  (forall h, In h s'' <-> In h s /\ In h s') ->
  project p s' = project t s''.
Proof.
  intros Hp Hs''.
  assert (Hc : forall h, contains h s'' = contains h s && contains h s').
  { intros h.
    destruct (contains h s'') eqn:H'', (contains h s) eqn:H,
      (contains h s') eqn:H'; try reflexivity; exfalso;
      rewrite <- ?not_true_iff_false, ?contains_In in *;
      specialize (Hs'' h); tauto. }
  destruct t as [|headers data]; [discriminate|].
  unfold project in Hp. injection Hp as <-.
  set (pairs :=
         filter (fun ih : nat * str => let (_, h) := ih in contains h s)
           (enumerate headers 0)).
  set (idx := column_indices headers s).
  assert (Hidx : idx = List.map (fun ih : nat * str => let (j, _) := ih in j)
                         pairs) by reflexivity.
  assert (Hhead : List.map (cell_at headers) idx
                  = List.map (fun ih : nat * str => let (_, h) := ih in h)
                      pairs).
  { etransitivity; [exact (header_cells_from s [] headers)|].
    unfold pairs. rewrite filter_member_headers, enumerate_headers.
    reflexivity. }
  set (idx' := column_indices (List.map (cell_at headers) idx) s').
  assert (Hback : List.map (fun k => nth k idx 0) idx'
                  = column_indices headers s'').
  { unfold idx'. rewrite Hhead, Hidx. unfold column_indices.
    rewrite <- (filter_member_twice s s' s'' _ Hc).
    fold pairs.
    rewrite <- (positions_of_members s' pairs 0).
    apply List.map_ext. intros k. now rewrite Nat.sub_0_r. }
  assert (Hrange : forall k, In k idx' -> k < length idx).
  { intros k Hk. apply column_indices_spec in Hk.
    rewrite length_map in Hk. tauto. }
  assert (Hrows : forall rows,
             filtered_rows idx' (filtered_rows idx rows)
             = filtered_rows (List.map (fun k => nth k idx 0) idx') rows).
  { intros rows. unfold filtered_rows. rewrite List.map_map.
    apply List.map_ext. intros row.
    rewrite List.map_map. apply List.map_ext_in. intros k Hk.
    apply cell_at_projected, Hrange, Hk. }
  unfold project. fold idx'. rewrite <- Hback, <- Hrows. reflexivity.
Qed.

(** The instance of X5 on a table of three columns. *)
Lemma projection_composes_witness :
  project [[lit "a"; lit "c"]; [lit "1"; lit "3"]] [lit "c"; lit "b"]
  = project [[lit "a"; lit "b"; lit "c"]; [lit "1"; lit "2"; lit "3"]]
      [lit "c"].
Proof.
  apply (projection_composes
           [[lit "a"; lit "b"; lit "c"]; [lit "1"; lit "2"; lit "3"]]
           [lit "a"; lit "c"] [lit "c"; lit "b"] [lit "c"]
           [[lit "a"; lit "c"]; [lit "1"; lit "3"]]).
  - reflexivity.
  - intros h. simpl. split.
    + intros [<- | []]. auto.
    + intros [[<- | [<- | []]] [H | [H | []]]]; auto; discriminate H.
Defined.

(** ** The choice of the headers: lines 103-118 of [choose_headers] *)

Lemma choose_headers_loop (vars_ : list (str * bool)) (acc : list str) :
  fold_left
    (fun result (hv : str * bool) =>
       let (h, v) := hv in if v then result ++ [h] else result)
    vars_ acc
  = acc ++ vars_headers
             (filter (fun hv : str * bool => let (_, v) := hv in v) vars_).
Proof.
  revert acc. induction vars_ as [|[h v] vars_ IH]; intros acc; simpl.
  - now rewrite app_nil_r.
  - rewrite IH. destruct v; simpl; [now rewrite <- app_assoc | reflexivity].
Qed.

Lemma choose_headers_result_cons (h : str) (v : bool)
  (vars_ : list (str * bool)) :
  choose_headers_result ((h, v) :: vars_)
  = if v then h :: choose_headers_result vars_
    else choose_headers_result vars_.
Proof.
  unfold choose_headers_result. rewrite !choose_headers_loop. simpl.
  now destruct v.
Qed.

Lemma choose_headers_result_In (vars_ : list (str * bool)) (h : str) :
  In h (choose_headers_result vars_) <-> In (h, true) vars_.
Proof.
  induction vars_ as [|[h' v] vars_ IH].
  - simpl. tauto.
  - rewrite choose_headers_result_cons. simpl. destruct v; simpl.
    + rewrite IH. split; (intros [H | H]; [left; congruence | now right]).
    + rewrite IH. split; [now right | intros [H | H]; [discriminate | exact H]].
Qed.

Lemma vars_headers_nth (vars_ : list (str * bool)) (i : nat)
  (h : str) (v : bool) :
  nth_error vars_ i = Some (h, v) ->
  i < length (vars_headers vars_) /\ nth i (vars_headers vars_) [] = h.
Proof.
  intros H. unfold vars_headers. rewrite length_map. split.
  - apply nth_error_Some. congruence.
  - apply nth_error_nth. now rewrite nth_error_map, H.
Qed.

(** X6: a column is exported exactly when a box with the same header
    text is ticked.  A column whose own box is not ticked is exported
    all the same when another column with the same header text is. *)
Theorem column_kept_iff_header_text_ticked
  (vars_ : list (str * bool)) (i : nat) :
  In i (column_indices (vars_headers vars_) (choose_headers_result vars_))
  <-> exists h v j,
        nth_error vars_ i = Some (h, v) /\ nth_error vars_ j = Some (h, true).
Proof.
  split.
  - intros Hin. apply column_indices_spec in Hin. destruct Hin as [Hlt Hsel].
    unfold vars_headers in Hlt. rewrite length_map in Hlt.
    destruct (nth_error vars_ i) as [[h v]|] eqn:Hi;
      [|apply nth_error_None in Hi; lia].
    destruct (vars_headers_nth _ _ _ _ Hi) as [_ Hh]. rewrite Hh in Hsel.
    apply choose_headers_result_In, In_nth_error in Hsel.
    destruct Hsel as [j Hj]. now exists h, v, j.
  - intros (h & v & j & Hi & Hj).
    destruct (vars_headers_nth _ _ _ _ Hi) as [Hlt Hh].
    apply indices_from_complete; [lia|].
    rewrite Nat.sub_0_r, Hh. apply contains_In, choose_headers_result_In.
    eapply nth_error_In, Hj.
Qed.

Lemma unticked_header_not_chosen (vars_ : list (str * bool)) (h : str) :
  ~ In h (vars_headers vars_) -> contains h (choose_headers_result vars_) = false.
Proof.
  intros Hn. apply not_true_iff_false. intros Hc.
  apply contains_In, choose_headers_result_In in Hc. apply Hn.
  unfold vars_headers. apply in_map_iff. now exists (h, true).
Qed.

Lemma chosen_headers_filter (vars_ : list (str * bool)) :
  NoDup (vars_headers vars_) ->
  filter (fun h => contains h (choose_headers_result vars_))
    (vars_headers vars_)
  = choose_headers_result vars_.
Proof.
  induction vars_ as [|[h v] vars_ IH]; intros Hnd; [reflexivity|].
  simpl in Hnd. inversion Hnd as [|? ? Hnotin Hnd']; subst.
  rewrite choose_headers_result_cons. simpl.
  assert (Hrest : forall sel,
             filter (fun h' => str_eqb h h' || contains h' sel)
               (vars_headers vars_)
             = filter (fun h' => contains h' sel) (vars_headers vars_)).
  { intros sel. apply filter_ext_in. intros h' Hin.
    destruct (str_eqb h h') eqn:E; [|reflexivity].
    apply str_eqb_eq in E. subst h'. contradiction. }
  destruct v; simpl.
  - assert (E : str_eqb h h = true) by now apply str_eqb_eq.
    rewrite E. simpl. f_equal. rewrite Hrest. now apply IH.
  - rewrite (unticked_header_not_chosen _ _ Hnotin). now apply IH.
Qed.

(** X7: when the header texts are distinct, the exported columns are
    exactly the ticked ones, and the header row of the exported table is
    the list that [choose_headers] returned. *)
Theorem distinct_headers_export_ticked_columns
  (vars_ : list (str * bool)) (data : list (list str)) :
  NoDup (vars_headers vars_) ->
  (forall i,
      In i (column_indices (vars_headers vars_) (choose_headers_result vars_))
      <-> exists h, nth_error vars_ i = Some (h, true))
  /\ exists pdata,
       project (vars_headers vars_ :: data) (choose_headers_result vars_)
       = OK (choose_headers_result vars_ :: pdata).
Proof.
  intros Hnd. split.
  - intros i. split.
    + intros Hin. apply column_indices_spec in Hin.
      destruct Hin as [Hlt Hsel].
      unfold vars_headers in Hlt. rewrite length_map in Hlt.
      destruct (nth_error vars_ i) as [[h v]|] eqn:Hi;
        [|apply nth_error_None in Hi; lia].
      destruct (vars_headers_nth _ _ _ _ Hi) as [Hlt' Hh]. rewrite Hh in Hsel.
      apply choose_headers_result_In, In_nth_error in Hsel.
      destruct Hsel as [j Hj].
      destruct (vars_headers_nth _ _ _ _ Hj) as [Hltj Hhj].
      assert (Heq : i = j).
      { apply (proj1 (NoDup_nth (vars_headers vars_) []) Hnd); auto.
        congruence. }
      subst j. exists h. congruence.
    + intros [h Hi].
      destruct (vars_headers_nth _ _ _ _ Hi) as [Hlt Hh].
      apply indices_from_complete; [lia|].
      rewrite Nat.sub_0_r, Hh. apply contains_In, choose_headers_result_In.
      eapply nth_error_In, Hi.
  - exists (filtered_rows
              (column_indices (vars_headers vars_)
                 (choose_headers_result vars_)) data).
    unfold project, filtered_rows. simpl. do 2 f_equal.
    etransitivity;
      [exact (header_cells_from (choose_headers_result vars_) []
                (vars_headers vars_))|].
    now apply chosen_headers_filter.
Qed.

(** The instance of X7 on the headers [a] and [b] with [b] ticked. *)
Lemma distinct_headers_export_ticked_columns_witness :
  (forall i,
      In i (column_indices (vars_headers [(lit "a", false); (lit "b", true)])
              (choose_headers_result [(lit "a", false); (lit "b", true)]))
      <-> exists h,
          nth_error [(lit "a", false); (lit "b", true)] i = Some (h, true))
  /\ exists pdata,
       project
         (vars_headers [(lit "a", false); (lit "b", true)]
            :: [[lit "1"; lit "2"]])
         (choose_headers_result [(lit "a", false); (lit "b", true)])
       = OK (choose_headers_result [(lit "a", false); (lit "b", true)]
               :: pdata).
Proof.
  apply (distinct_headers_export_ticked_columns
           [(lit "a", false); (lit "b", true)] [[lit "1"; lit "2"]]).
  repeat constructor; simpl; intuition discriminate.
Defined.

Lemma cell_at_pad_or_cut (pre row : list str) (n : nat) :
  List.map (cell_at (pre ++ row)) (seq (length pre) n)
  = firstn n row ++ repeat [] (n - length row).
Proof.
  revert pre n. induction row as [|c row IH]; intros pre n.
  - rewrite app_nil_r, firstn_nil, Nat.sub_0_r. simpl.
    generalize (Nat.le_refl (length pre)).
    generalize (length pre) at 2 3 as start.
    induction n as [|n IHn]; intros start Hle; [reflexivity|]. simpl.
    rewrite IHn by lia. f_equal. unfold cell_at.
    destruct (Nat.ltb_spec start (length pre)); [lia | reflexivity].
  - destruct n as [|n]; [reflexivity|]. simpl. f_equal.
    + unfold cell_at. rewrite length_app. simpl.
      destruct (Nat.ltb_spec (length pre) (length pre + S (length row)));
        [|lia].
      now rewrite nth_middle.
    + specialize (IH (pre ++ [c]) n).
      rewrite <- app_assoc, length_app, Nat.add_1_r in IH. exact IH.
Qed.

(** X8: when every box is left ticked, as the dialog opens,
    [choose_headers] returns all the headers, and the exported table is
    the table with every row cut, or padded with empty strings, to the
    length of the header row. *)
Theorem all_ticked_exports_every_column
  (vars_ : list (str * bool)) (data : list (list str)) :
  Forall (fun hv : str * bool => let (_, v) := hv in v = true) vars_ ->
  choose_headers_result vars_ = vars_headers vars_
  /\ project (vars_headers vars_ :: data) (choose_headers_result vars_)
     = OK (List.map
             (fun row =>
                firstn (length vars_) row
                  ++ repeat [] (length vars_ - length row))
             (vars_headers vars_ :: data)).
Proof.
  intros Hall.
  assert (Hres : choose_headers_result vars_ = vars_headers vars_).
  { unfold choose_headers_result. rewrite choose_headers_loop. simpl.
    f_equal. apply forallb_filter_id. apply forallb_forall.
    intros [h v] Hin. rewrite Forall_forall in Hall. exact (Hall _ Hin). }
  split; [exact Hres|]. rewrite Hres. unfold project.
  rewrite column_indices_all.
  - unfold filtered_rows. f_equal. apply List.map_ext. intros row.
    unfold vars_headers. rewrite length_map.
    exact (cell_at_pad_or_cut [] row (length vars_)).
  - apply Forall_forall. auto.
Qed.

(** The instance of X8 on two ticked headers and a row of one cell. *)
Lemma all_ticked_exports_every_column_witness :
  choose_headers_result [(lit "a", true); (lit "b", true)]
  = vars_headers [(lit "a", true); (lit "b", true)]
  /\ project
       (vars_headers [(lit "a", true); (lit "b", true)] :: [[lit "1"]])
       (choose_headers_result [(lit "a", true); (lit "b", true)])
     = OK (List.map
             (fun row =>
                firstn (length [(lit "a", true); (lit "b", true)]) row
                  ++ repeat []
                       (length [(lit "a", true); (lit "b", true)]
                        - length row))
             (vars_headers [(lit "a", true); (lit "b", true)]
                :: [[lit "1"]])).
Proof.
  apply (all_ticked_exports_every_column
           [(lit "a", true); (lit "b", true)] [[lit "1"]]).
  repeat constructor.
Defined.

(** ** The size of the table *)

Lemma reader_list_length (lines : list str) (rows : list (list str)) :
  Csv.reader_list lines = OK rows -> length rows <= length lines.
Proof.
  remember (length lines) as n eqn:Hn.
  revert lines rows Hn. induction n as [n IH] using lt_wf_ind.
  intros lines rows -> H. rewrite reader_list_unfold in H.
  destruct (Csv.Reader_iternext lines) as [[[row rest]|]|e] eqn:Hnext;
    [| injection H as <-; simpl; lia | discriminate].
  destruct (Reader_iternext_rest _ _ _ Hnext) as (pre & -> & Hpre).
  destruct (Csv.reader_list rest) as [rows'|] eqn:Hrest; [|discriminate].
  simpl in H. injection H as <-.
  assert (Hlt : length rest < length (pre ++ rest)).
  { rewrite length_app. destruct pre; [congruence | simpl; lia]. }
  pose proof (IH _ Hlt rest rows' eq_refl Hrest). simpl. lia.
Qed.

Lemma filter_length_le {A} (f : A -> bool) (l : list A) :
  length (filter f l) <= length l.
Proof.
  induction l as [|x l IH]; simpl; [lia|]. destruct (f x); simpl; lia.
Qed.

(** X9: the reader makes at most one row of a line (a quoted field
    that runs over several lines makes one row of them), so the table
    has at most as many rows as lines are handed to the reader, and
    these are at most the lines of the text. *)
Theorem table_has_at_most_one_row_per_line
  (csv_text : str) (table : list (list str)) :
  parse_csv csv_text = OK table ->
  length table <= length (parse_csv_lines csv_text)
  /\ length (parse_csv_lines csv_text) <= length (splitlines csv_text).
Proof.
  intros H. unfold parse_csv, parse_csv_rows in H. split.
  - destruct (Csv.reader_list (parse_csv_lines csv_text)) as [rows|] eqn:Hr;
      [|discriminate].
    simpl in H. injection H as <-.
    etransitivity; [apply filter_length_le|].
    now apply reader_list_length.
  - unfold parse_csv_lines. rewrite normalize_loop. simpl.
    etransitivity; [apply filter_length_le|]. now rewrite length_map.
Qed.

(** The instance of X9 on a quoted field that runs over two lines. *)
Lemma table_has_at_most_one_row_per_line_witness :
  let raw := lit "Name," ++ [DQUOTE] ++ lit "Age" ++ [LF] ++ lit "1,2" in
  length [[lit "Name"; lit "Age1,2"]] <= length (parse_csv_lines raw)
  /\ length (parse_csv_lines raw) <= length (splitlines raw).
Proof.
  apply (table_has_at_most_one_row_per_line
           (lit "Name," ++ [DQUOTE] ++ lit "Age" ++ [LF] ++ lit "1,2")
           [[lit "Name"; lit "Age1,2"]]).
  vm_compute. reflexivity.
Defined.

(** ** Stripped lines *)

Lemma lstrip_fixed (s : str) :
  lstrip s = s
  <-> match s with [] => True | c :: _ => isspace c = false end.
Proof.
  destruct s as [|c s]; simpl; [tauto|].
  destruct (isspace c) eqn:Hc; split; try congruence; try discriminate.
  intros H. pose proof (lstrip_length s) as Hl. rewrite H in Hl.
  simpl in Hl. lia.
Qed.

Lemma lstrip_idempotent (s : str) : lstrip (lstrip s) = lstrip s.
Proof.
  induction s as [|c s IH]; [reflexivity|]. simpl.
  destruct (isspace c) eqn:Hc; [exact IH|]. simpl. now rewrite Hc.
Qed.

(** A string that [strip] leaves as it is: no white space at either
    end. *)
Lemma strip_fixed (s : str) :
  strip s = s <-> lstrip s = s /\ lstrip (rev s) = rev s.
Proof.
  unfold strip, rstrip. split.
  - intros H.
    assert (Hrev : lstrip (rev (lstrip s)) = rev s).
    { rewrite <- H at 2. now rewrite rev_involutive. }
    assert (Hlen : length (lstrip s) = length s).
    { apply Nat.le_antisymm; [apply lstrip_length|].
      rewrite <- (length_rev s), <- Hrev.
      etransitivity; [apply lstrip_length|]. now rewrite length_rev. }
    assert (Hl : lstrip s = s).
    { destruct (lstrip_suffix s) as [pre Hpre].
      rewrite Hpre in Hlen at 2. rewrite length_app in Hlen.
      destruct pre; [exact (eq_sym Hpre) | simpl in Hlen; lia]. }
    split; [exact Hl|]. now rewrite Hl in Hrev.
  - intros [Hl Hr]. now rewrite Hl, Hr, rev_involutive.
Qed.

Lemma strip_idempotent (s : str) : strip (strip s) = strip s.
Proof.
  apply strip_fixed. unfold strip, rstrip.
  set (t := lstrip s). set (v := lstrip (rev t)).
  split; [|now rewrite rev_involutive; apply lstrip_idempotent].
  apply lstrip_fixed.
  destruct (lstrip_suffix (rev t)) as [pre Hpre]. fold v in Hpre.
  assert (Ht : t = rev v ++ rev pre).
  { rewrite <- (rev_involutive t), Hpre. apply rev_app_distr. }
  destruct (rev v) as [|c w] eqn:Hv; [exact I|].
  assert (Hfix : lstrip t = t) by apply lstrip_idempotent.
  apply lstrip_fixed in Hfix. rewrite Ht in Hfix. exact Hfix.
Qed.

Lemma splitlines_from_app (l rest cur : str) :
  Forall (fun c => islinebreak c = false) l ->
  splitlines_from cur (l ++ rest) = splitlines_from (rev l ++ cur) rest.
Proof.
  revert cur. induction l as [|c l IH]; intros cur Hl; [reflexivity|].
  inversion Hl as [|? ? Hc Hl']; subst. simpl. rewrite Hc.
  rewrite IH by exact Hl'. now rewrite <- app_assoc.
Qed.

Lemma splitlines_from_LF (cur rest : str) :
  splitlines_from cur (LF :: rest) = rev cur :: splitlines_from [] rest.
Proof. destruct rest; reflexivity. Qed.

Lemma normalized_lines_spec (csv_text : str) :
  parse_csv_lines csv_text
  = filter (fun line => negb (dropped line))
      (List.map strip (splitlines csv_text)).
Proof. unfold parse_csv_lines. now rewrite normalize_loop. Qed.

(** The lines of a text made of [lines] joined by new-lines are
    [lines], but for an empty last line, which the normalizer drops
    anyway. *)
Lemma normalized_lines_of_join (lines : list str) :
  Forall (Forall (fun c => islinebreak c = false)) lines ->
  parse_csv_lines (join [LF] lines)
  = filter (fun line => negb (dropped line)) (List.map strip lines).
Proof.
  intros Hall. rewrite normalized_lines_spec. unfold splitlines.
  induction Hall as [|l ls Hl Hls IH]; [reflexivity|].
  destruct ls as [|l2 ls'].
  - simpl join. rewrite <- (app_nil_r l) at 1.
    rewrite splitlines_from_app by exact Hl. rewrite app_nil_r. simpl.
    destruct l as [|c l]; [reflexivity|].
    destruct (rev (c :: l)) eqn:Hrev.
    + apply (f_equal (@length _)) in Hrev. rewrite length_rev in Hrev.
      discriminate.
    + rewrite <- Hrev, rev_involutive. reflexivity.
  - change (join [LF] (l :: l2 :: ls'))
      with (l ++ LF :: join [LF] (l2 :: ls')).
    rewrite splitlines_from_app by exact Hl.
    rewrite app_nil_r.
    rewrite splitlines_from_LF, rev_involutive.
    assert (Hcons : forall rest,
               filter (fun line => negb (dropped line))
                 (List.map strip (l :: rest))
               = filter (fun line => negb (dropped line)) [strip l]
                   ++ filter (fun line => negb (dropped line))
                        (List.map strip rest)).
    { intros rest. simpl. now destruct (negb (dropped (strip l))). }
    rewrite !Hcons, IH. reflexivity.
Qed.

Lemma filter_idempotent {A} (f : A -> bool) (l : list A) :
  filter f (filter f l) = filter f l.
Proof.
  induction l as [|x l IH]; [reflexivity|]. simpl.
  destruct (f x) eqn:Hx; simpl; rewrite ?Hx, IH; reflexivity.
Qed.

Lemma normalized_lines_are_stripped_aux (csv_text : str) :
  Forall (fun line => strip line = line
                      /\ Forall (fun c => islinebreak c = false) line)
    (parse_csv_lines csv_text).
Proof.
  rewrite normalized_lines_spec. apply Forall_forall. intros line Hin.
  apply filter_In in Hin. destruct Hin as [Hin _].
  apply in_map_iff in Hin. destruct Hin as (raw & <- & Hraw).
  split; [apply strip_idempotent|].
  apply strip_Forall.
  destruct (splitlines_from_sound csv_text [] (Forall_nil _)) as [HF _].
  revert raw Hraw. now apply Forall_forall.
Qed.

(** X10: every line that [parse_csv] hands to the reader is not empty,
    has no white space at either end and no line break inside. *)
Theorem normalized_lines_are_stripped (csv_text : str) :
  Forall (fun line => line <> []
                      /\ strip line = line
                      /\ Forall (fun c => islinebreak c = false) line)
    (parse_csv_lines csv_text).
Proof.
  pose proof (normalized_lines_are_stripped_aux csv_text) as Hinv.
  apply Forall_forall. intros line Hin.
  rewrite Forall_forall in Hinv. destruct (Hinv line Hin) as [Hs Hb].
  split; [|split; assumption].
  rewrite normalized_lines_spec in Hin. apply filter_In in Hin.
  destruct Hin as [_ Hk]. intros ->. discriminate Hk.
Qed.

(** X11: [parse_csv] is not sensitive to the fences, blank lines and
    white space it removes: the text of the lines it keeps, joined by
    new-lines, is parsed to the same lines and the same result. *)
Theorem parse_csv_of_normalized_text (csv_text : str) :
  parse_csv_lines (join [LF] (parse_csv_lines csv_text))
  = parse_csv_lines csv_text
  /\ parse_csv (join [LF] (parse_csv_lines csv_text)) = parse_csv csv_text.
Proof.
  assert (H : parse_csv_lines (join [LF] (parse_csv_lines csv_text))
              = parse_csv_lines csv_text).
  { pose proof (normalized_lines_are_stripped_aux csv_text) as Hinv.
    rewrite normalized_lines_of_join.
    - rewrite (List.map_ext_in strip (fun line => line)).
      + rewrite List.map_id. rewrite normalized_lines_spec.
        apply filter_idempotent.
      + intros line Hin. rewrite Forall_forall in Hinv.
        exact (proj1 (Hinv line Hin)).
    - eapply Forall_impl; [|exact Hinv]. intros line [_ Hb]. exact Hb. }
  split; [exact H|]. unfold parse_csv. now rewrite H.
Qed.

(** ** The normalizer and the decoder, stated on the text *)

Lemma lstrip_space_prefix (s : str) :
  exists pre,
    s = pre ++ lstrip s /\ Forall (fun c => isspace c = true) pre.
Proof.
  induction s as [|c s (pre & IH & Hpre)]; [now exists []|]. simpl.
  destruct (isspace c) eqn:Hc.
  - exists (c :: pre). simpl. split; [now f_equal | now constructor].
  - now exists [].
Qed.

Lemma lstrip_app_space (l s : str) :
  Forall (fun c => isspace c = true) l -> lstrip (l ++ s) = lstrip s.
Proof.
  induction 1 as [|c l Hc Hl IH]; [reflexivity|]. simpl. now rewrite Hc.
Qed.

Lemma lstrip_all_space (l : str) :
  Forall (fun c => isspace c = true) l -> lstrip l = [].
Proof.
  intros H. rewrite <- (app_nil_r l). now rewrite lstrip_app_space.
Qed.

Lemma lstrip_nil (s : str) : lstrip s = [] <-> forallb isspace s = true.
Proof.
  induction s as [|c s IH]; simpl; [tauto|].
  destruct (isspace c); simpl; [exact IH|].
  split; discriminate.
Qed.

Lemma starts_clean_lstrip (s : str) : starts_clean s <-> lstrip s = s.
Proof. symmetry. apply lstrip_fixed. Qed.

(** [strip] trims: the line is the stripped line between two runs of
    white space, and the stripped line has no white space at its ends. *)
Lemma strip_trims (line : str) : spec_trimmed line (strip line).
Proof.
  destruct (lstrip_space_prefix line) as (l & Hl & Hspace_l).
  destruct (lstrip_space_prefix (rev (lstrip line))) as (p & Hp & Hspace_p).
  pose proof (strip_idempotent line) as Hfix.
  apply strip_fixed in Hfix. destruct Hfix as [Hleft Hright].
  exists l, (rev p). repeat split.
  - rewrite Hl at 1. f_equal. unfold strip, rstrip.
    rewrite <- rev_app_distr, <- Hp. now rewrite rev_involutive.
  - exact Hspace_l.
  - now apply Forall_rev.
  - now apply starts_clean_lstrip.
  - now apply starts_clean_lstrip.
Qed.

(** ... and nothing else does. *)
Lemma trimmed_is_strip (line t : str) : spec_trimmed line t -> t = strip line.
Proof.
  intros (l & r & -> & Hl & Hr & Ht & Hrev).
  unfold strip, rstrip. rewrite lstrip_app_space by exact Hl.
  destruct t as [|c t].
  - simpl. rewrite (lstrip_all_space r Hr). reflexivity.
  - assert (Hkeep : lstrip ((c :: t) ++ r) = (c :: t) ++ r).
    { simpl in Ht |- *. now rewrite Ht. }
    rewrite Hkeep, rev_app_distr.
    rewrite lstrip_app_space by (now apply Forall_rev).
    apply starts_clean_lstrip in Hrev. rewrite Hrev.
    now rewrite rev_involutive.
Qed.

Lemma all_trimmed_is_map_strip (segs trimmed : list str) :
  Forall2 spec_trimmed segs trimmed -> trimmed = List.map strip segs.
Proof.
  induction 1 as [|seg t segs trimmed Ht _ IH]; [reflexivity|].
  simpl. f_equal; [now apply trimmed_is_strip | exact IH].
Qed.

Lemma map_strip_all_trimmed (segs : list str) :
  Forall2 spec_trimmed segs (List.map strip segs).
Proof.
  induction segs as [|seg segs IH]; simpl; constructor;
    [apply strip_trims | exact IH].
Qed.

(** [splitlines] splits on line boundaries. *)
Lemma splitlines_from_lines (s cur : str) :
  Forall (fun c => islinebreak c = false) cur ->
  spec_lines (rev cur ++ s) (splitlines_from cur s).
Proof.
  remember (length s) as n eqn:Hn.
  revert s cur Hn. induction n as [n IH] using lt_wf_ind.
  intros [|c rest] cur -> Hcur.
  - rewrite app_nil_r. destruct cur as [|c cur'] eqn:Ecur.
    + constructor.
    + cbn [splitlines_from]. apply spec_lines_last.
      * intros H. apply (f_equal (@length _)) in H.
        rewrite length_rev in H. discriminate H.
      * now apply Forall_rev.
  - cbn [splitlines_from]. destruct (islinebreak c) eqn:Hc.
    + assert (Hrest : forall s', length s' <= length rest ->
                                 spec_lines s' (splitlines_from [] s')).
      { intros s' Hle.
        apply (IH (length s') ltac:(simpl; lia) s' [] eq_refl).
        constructor. }
      destruct rest as [|c' rest'].
      * apply spec_lines_break;
          [now apply Forall_rev | exact Hc | | apply Hrest; simpl; lia].
        intros [_ [rest' H]]. discriminate H.
      * destruct (N.eqb c CR && N.eqb c' LF) eqn:Hcrlf.
        -- apply andb_true_iff in Hcrlf. destruct Hcrlf as [H1 H2].
           apply N.eqb_eq in H1, H2. subst c c'.
           apply spec_lines_crlf;
             [now apply Forall_rev | apply Hrest; simpl; lia].
        -- apply spec_lines_break;
             [now apply Forall_rev | exact Hc | | apply Hrest; simpl; lia].
           intros [-> [r [= -> _]]]. discriminate Hcrlf.
    + replace (rev cur ++ c :: rest) with (rev (c :: cur) ++ rest)
        by (simpl; now rewrite <- app_assoc).
      apply (IH (length rest) ltac:(simpl; lia) rest (c :: cur) eq_refl).
      now constructor.
Qed.

(** ... and nothing else does. *)
Lemma lines_are_splitlines (text : str) (segs : list str) :
  spec_lines text segs -> segs = splitlines text.
Proof.
  unfold splitlines.
  induction 1 as [| line Hne Hline
                  | line c rest segs Hline Hc Hcrlf _ IH
                  | line rest segs Hline _ IH].
  - reflexivity.
  - rewrite <- (app_nil_r line) at 2.
    rewrite splitlines_from_app by exact Hline. rewrite app_nil_r.
    cbn [splitlines_from]. destruct (rev line) eqn:Hrev.
    + apply (f_equal (@length _)) in Hrev. rewrite length_rev in Hrev.
      destruct line; [congruence | discriminate Hrev].
    + rewrite <- Hrev. now rewrite rev_involutive.
  - rewrite splitlines_from_app by exact Hline. rewrite app_nil_r.
    cbn [splitlines_from]. rewrite Hc, rev_involutive. f_equal.
    destruct rest as [|c' rest']; [exact IH|].
    destruct (N.eqb c CR && N.eqb c' LF) eqn:E; [|exact IH].
    apply andb_true_iff in E. destruct E as [H1 H2].
    apply N.eqb_eq in H1, H2. subst. exfalso. apply Hcrlf. eauto.
  - rewrite splitlines_from_app by exact Hline. rewrite app_nil_r.
    cbn [splitlines_from]. rewrite rev_involutive.
    change (islinebreak CR) with true. cbn iota.
    rewrite !N.eqb_refl. cbn [andb]. f_equal. exact IH.
Qed.

Lemma startswith_fence (line : str) :
  startswith line fence = true <-> exists rest, line = fence ++ rest.
Proof.
  unfold fence. split.
  - destruct line as [|a [|b [|c rest]]]; simpl;
      rewrite ?andb_false_r; try discriminate.
    rewrite !andb_true_iff, !N.eqb_eq.
    intros (-> & -> & -> & _). now exists rest.
  - intros [rest ->]. now destruct rest.
Qed.

Lemma dropped_spec (line : str) :
  dropped line = true <-> line = [] \/ exists rest, line = fence ++ rest.
Proof.
  unfold dropped.
  rewrite orb_true_iff, negb_true_iff, truthy_false, startswith_fence.
  tauto.
Qed.

(** C5: the lines that [parse_csv] hands to the reader are got from the
    text in this way: the text is split on its line boundaries (which
    can be done, and in one way only), every line is trimmed of the
    white space at its two ends (likewise), and the trimmed lines that
    are neither empty nor begin with the three characters of the fence
    marker are kept, in their order; a line is dropped exactly when it
    is empty or begins with the fence marker once trimmed, so no line
    handed on is empty or begins with the fence marker. *)
Theorem normalizer_keeps_exactly_content_lines (csv_text : str) :
  (exists segs trimmed,
      spec_lines csv_text segs /\ Forall2 spec_trimmed segs trimmed)
  /\ (forall segs trimmed,
         spec_lines csv_text segs ->
         Forall2 spec_trimmed segs trimmed ->
         parse_csv_lines csv_text
         = filter (fun t => negb (dropped t)) trimmed)
  /\ (forall t, dropped t = true
                <-> t = [] \/ exists rest, t = fence ++ rest)
  /\ Forall (fun line => line <> [] /\ forall rest, line <> fence ++ rest)
       (parse_csv_lines csv_text).
Proof.
  split; [|split; [|split]].
  - exists (splitlines csv_text), (List.map strip (splitlines csv_text)).
    split; [|apply map_strip_all_trimmed].
    apply (splitlines_from_lines csv_text []). constructor.
  - intros segs trimmed Hsegs Htrimmed.
    apply lines_are_splitlines in Hsegs.
    apply all_trimmed_is_map_strip in Htrimmed. subst.
    apply normalized_lines_spec.
  - exact dropped_spec.
  - rewrite normalized_lines_spec. apply Forall_forall. intros line Hin.
    apply filter_In in Hin. destruct Hin as [_ Hk].
    apply negb_true_iff in Hk.
    split.
    + intros ->. discriminate Hk.
    + intros rest ->.
      rewrite (proj2 (dropped_spec (fence ++ rest))) in Hk;
        [discriminate Hk | right; now exists rest].
Qed.

(** The instance of C5 on a text of four lines: a fence line ended by
    CR LF, a line with white space at both ends, an empty line and a
    last line without its boundary.  The two lines with content are
    kept, trimmed. *)
Lemma normalizer_keeps_exactly_content_lines_witness :
  let raw :=
    fence ++ lit "csv" ++ [CR; LF] ++ lit "  a " ++ [LF; LF] ++ lit " b" in
  parse_csv_lines raw = [lit "a"; lit "b"].
Proof.
  intros raw.
  destruct (normalizer_keeps_exactly_content_lines raw) as (_ & Hlines & _).
  rewrite (Hlines [fence ++ lit "csv"; lit "  a "; []; lit " b"]
             [fence ++ lit "csv"; lit "a"; []; lit "b"]).
  - reflexivity.
  - refine (@spec_lines_crlf (fence ++ lit "csv")
              (lit "  a " ++ [LF; LF] ++ lit " b") _ _ _);
      [repeat constructor|].
    refine (@spec_lines_break (lit "  a ") LF (LF :: lit " b") _ _ _ _ _);
      [repeat constructor | reflexivity | intros [H _]; discriminate H|].
    refine (@spec_lines_break [] LF (lit " b") _ _ _ _ _);
      [constructor | reflexivity | intros [H _]; discriminate H|].
    apply spec_lines_last; [discriminate | repeat constructor].
  - constructor; [|constructor; [|constructor; [|constructor; [|constructor]]]].
    + exists [], []. repeat split; constructor.
    + exists (lit "  "), (lit " "). repeat split; repeat constructor.
    + exists [], []. repeat split; constructor.
    + exists (lit " "), []. repeat split; repeat constructor.
Defined.

Lemma forallb_false_exists {A} (f : A -> bool) (l : list A) :
  forallb f l = false <-> exists x, In x l /\ f x = false.
Proof.
  induction l as [|y l IH]; simpl.
  - split; [discriminate | intros (x & [] & _)].
  - rewrite andb_false_iff, IH. split.
    + intros [Hy | (x & Hx & Hfx)]; eauto.
    + intros (x & [-> | Hx] & Hfx); eauto.
Qed.

Lemma strip_nil (cell : str) : strip cell = [] <-> forallb isspace cell = true.
Proof.
  split.
  - intros H. destruct (strip_trims cell) as (l & r & Hcell & Hl & Hr & _).
    rewrite H in Hcell. simpl in Hcell. rewrite Hcell.
    apply forallb_forall. intros c Hc. apply in_app_or in Hc.
    rewrite Forall_forall in Hl, Hr. destruct Hc; auto.
  - intros H. unfold strip, rstrip.
    rewrite (proj2 (lstrip_nil cell) H). reflexivity.
Qed.

Lemma has_content_blank (row : list str) :
  has_content row = negb (forallb (forallb isspace) row).
Proof.
  unfold has_content.
  induction row as [|cell row IH]; [reflexivity|]. simpl.
  destruct (forallb isspace cell) eqn:Hb.
  - rewrite (proj2 (strip_nil cell) Hb). exact IH.
  - destruct (strip cell) eqn:Hs; [|reflexivity].
    apply strip_nil in Hs. congruence.
Qed.

(** C3 fails for the part that says the cells are trimmed: the row of
    the line [a , b] is kept with the space after [a] and the space
    before [b]; trimmed, its cells would be [a] and [b]. *)
Lemma kept_cells_are_not_trimmed :
  let lines := [lit "a , b"] in
  parse_csv_lines (lit "a , b") = lines
  /\ parse_csv_rows lines = OK [[lit "a "; lit " b"]]
  /\ parse_csv (lit "a , b") = OK [[lit "a "; lit " b"]]
  /\ List.map strip [lit "a "; lit " b"] = [lit "a"; lit "b"]
  /\ parse_csv_rows lines <> OK [[lit "a"; lit "b"]].
Proof.
  repeat split; try (vm_compute; reflexivity).
  vm_compute. discriminate.
Qed.

(** C3, amended: the rows that [csv.reader] yields are tested, not
    changed: a row is dropped exactly when every cell of it is blank,
    that is, holds white space only (an empty cell is blank).  The table
    is made of the other rows, in their order and with their cells as
    the reader produced them, white space at the ends included; so no
    row of the table has only blank cells. *)
Theorem decoder_drops_exactly_blank_rows
  (lines : list str) (rows : list (list str)) :
  Csv.reader_list lines = OK rows ->
  exists table,
    parse_csv_rows lines = OK table
    /\ table = filter (fun row => negb (forallb (forallb isspace) row)) rows
    /\ (forall row, Forall (Forall (fun c => isspace c = true)) row ->
                    ~ In row table)
    /\ (forall row, In row rows ->
                    (exists cell c,
                        In cell row /\ In c cell /\ isspace c = false) ->
                    In row table)
    /\ (forall row, In row table ->
                    In row rows
                    /\ exists cell c,
                         In cell row /\ In c cell /\ isspace c = false).
Proof.
  intros Hrows.
  exists (filter (fun row => negb (forallb (forallb isspace) row)) rows).
  assert (Hblank : forall row,
             Forall (Forall (fun c => isspace c = true)) row ->
             forallb (forallb isspace) row = true).
  { intros row H. apply forallb_forall. intros cell Hcell.
    apply forallb_forall. intros c Hc.
    rewrite Forall_forall in H. specialize (H cell Hcell).
    rewrite Forall_forall in H. now apply H. }
  assert (Hcontent : forall row,
             forallb (forallb isspace) row = false
             <-> exists cell c,
                   In cell row /\ In c cell /\ isspace c = false).
  { intros row. rewrite forallb_false_exists. split.
    - intros (cell & Hcell & H). apply forallb_false_exists in H.
      destruct H as (c & Hc & H). now exists cell, c.
    - intros (cell & c & Hcell & Hc & H). exists cell. split; [exact Hcell|].
      apply forallb_false_exists. now exists c. }
  split; [|split; [reflexivity|split; [|split]]].
  - unfold parse_csv_rows. rewrite Hrows. simpl. f_equal.
    apply filter_ext. exact has_content_blank.
  - intros row Hrow Hin. apply filter_In in Hin. destruct Hin as [_ Hk].
    rewrite (Hblank row Hrow) in Hk. discriminate Hk.
  - intros row Hin Hcell. apply filter_In. split; [exact Hin|].
    apply negb_true_iff. now apply Hcontent.
  - intros row Hin. apply filter_In in Hin. destruct Hin as [Hin Hk].
    split; [exact Hin|]. apply Hcontent. now apply negb_true_iff.
Qed.

(** The instance of C3 on three lines: of the three rows that the
    reader yields, the second has three blank cells and is dropped; the
    first is kept with the white space of its cells. *)
Lemma decoder_drops_exactly_blank_rows_witness :
  let lines := [lit "a , b"; lit ", ,"; lit "c"] in
  Csv.reader_list lines
  = OK [[lit "a "; lit " b"]; [[]; lit " "; []]; [lit "c"]]
  /\ parse_csv_rows lines = OK [[lit "a "; lit " b"]; [lit "c"]].
Proof.
  intros lines.
  assert (Hrows : Csv.reader_list lines
                  = OK [[lit "a "; lit " b"]; [[]; lit " "; []]; [lit "c"]])
    by (vm_compute; reflexivity).
  split; [exact Hrows|].
  destruct (decoder_drops_exactly_blank_rows lines _ Hrows)
    as (table & Hparse & Htable & _).
  rewrite Hparse, Htable. reflexivity.
Defined.

(** ** Lines without quotes *)

Lemma field_char_tests (c : char) :
  field_char c ->
  Csv.is_newline c = false /\ N.eqb c DQUOTE = false /\ N.eqb c COMMA = false.
Proof.
  intros (Hc & Hq & Hb). split; [now apply is_newline_islinebreak|].
  split; now apply N.eqb_neq.
Qed.

Lemma process_line_in_field (cell tail : str) (fs : list str) (f : str)
  (n : N) :
  Forall field_char cell ->
  (n + N.of_nat (length cell) <= Csv.field_limit)%N ->
  Csv.process_line (Csv.mkReader Csv.IN_FIELD fs f n) (cell ++ tail)
  = Csv.process_line
      (Csv.mkReader Csv.IN_FIELD fs (f ++ cell) (n + N.of_nat (length cell)))
      tail.
Proof.
  revert f n. induction cell as [|c cell IH]; intros f n Hcell Hlen.
  - simpl. now rewrite app_nil_r, N.add_0_r.
  - inversion Hcell as [|? ? Hc Hcell']; subst.
    destruct (field_char_tests c Hc) as (Hnl & Hq & Hcm).
    change (length (c :: cell)) with (S (length cell)) in Hlen |- *.
    rewrite Nat2N.inj_succ in Hlen |- *.
    simpl app. simpl Csv.process_line.
    unfold Csv.parse_process_char, Csv.parse_add_char. simpl.
    rewrite Hnl, Hcm.
    destruct (N.leb_spec Csv.field_limit n) as [Hge | Hlt];
      [exfalso; clear - Hge Hlen; lia|]. simpl.
    rewrite IH; [| exact Hcell' | clear - Hlen; lia].
    rewrite <- app_assoc. simpl. do 2 f_equal. clear. lia.
Qed.

Lemma process_line_start_field (cell tail : str) (fs : list str) :
  Forall field_char cell ->
  (N.of_nat (length cell) <= Csv.field_limit)%N ->
  Csv.process_line (Csv.mkReader Csv.START_FIELD fs [] 0) (cell ++ tail)
  = Csv.process_line
      match cell with
      | [] => Csv.mkReader Csv.START_FIELD fs [] 0
      | _ :: _ => Csv.mkReader Csv.IN_FIELD fs cell (N.of_nat (length cell))
      end tail.
Proof.
  intros Hcell Hlen. destruct cell as [|c cell]; [reflexivity|].
  inversion Hcell as [|? ? Hc Hcell']; subst.
  destruct (field_char_tests c Hc) as (Hnl & Hq & Hcm).
  change (length (c :: cell)) with (S (length cell)) in Hlen |- *.
  rewrite Nat2N.inj_succ in Hlen |- *.
  simpl app. simpl Csv.process_line.
  unfold Csv.parse_process_char, Csv.start_field, Csv.parse_add_char. simpl.
  rewrite Hnl, Hq, Hcm. simpl. unfold Csv.set_state. simpl.
  rewrite process_line_in_field; [| exact Hcell' | clear - Hlen; lia].
  cbn [app]. do 2 f_equal. clear. lia.
Qed.

(** The fields of a line of cells joined by commas are the cells. *)
Lemma process_joined_cells (cells : list str) (fs : list str) :
  cells <> [] ->
  Forall (fun cell => Forall field_char cell
                      /\ (N.of_nat (length cell) <= Csv.field_limit)%N)
    cells ->
  (let? r := Csv.process_line (Csv.mkReader Csv.START_FIELD fs [] 0)
               (join [COMMA] cells) in
   Csv.parse_process_char r Csv.EOL)
  = OK (Csv.mkReader Csv.START_RECORD (fs ++ cells) [] 0).
Proof.
  intros Hne Hall. revert Hne fs.
  induction Hall as [|c cs [Hc Hlen] Hcs IH]; intros Hne fs;
    [now contradiction Hne|].
  destruct cs as [|c2 cs'].
  - simpl join. rewrite <- (app_nil_r c) at 1.
    rewrite process_line_start_field by assumption.
    destruct c; reflexivity.
  - change (join [COMMA] (c :: c2 :: cs'))
      with (c ++ COMMA :: join [COMMA] (c2 :: cs')).
    rewrite process_line_start_field by assumption.
    assert (Hcomma : forall r,
               r = Csv.mkReader Csv.START_FIELD fs [] 0
               \/ r = Csv.mkReader Csv.IN_FIELD fs c (N.of_nat (length c)) ->
               c = Csv.field r ->
               Csv.parse_process_char r (Csv.Chr COMMA)
               = OK (Csv.mkReader Csv.START_FIELD (fs ++ [c]) [] 0)).
    { intros r [-> | ->] Hf; simpl in Hf; subst; reflexivity. }
    simpl Csv.process_line.
    rewrite Hcomma; [| destruct c; auto | destruct c; reflexivity].
    simpl Py.bind. rewrite IH by discriminate.
    now rewrite <- app_assoc.
Qed.

Lemma join_Forall (P : char -> Prop) (sep : str) (l : list str) :
  Forall P sep -> Forall (Forall P) l -> Forall P (join sep l).
Proof.
  intros Hsep Hl. induction Hl as [|x l Hx Hl IH]; [constructor|].
  destruct l as [|y l]; [exact Hx|].
  change (Forall P (x ++ sep ++ join sep (y :: l))).
  apply Forall_app. split; [exact Hx|]. apply Forall_app. now split.
Qed.

Lemma read_joined_cells (cells : list str) (rest : list str) :
  join [COMMA] cells <> [] ->
  Forall (fun cell => Forall field_char cell
                      /\ (N.of_nat (length cell) <= Csv.field_limit)%N)
    cells ->
  Csv.read_record Csv.parse_reset (join [COMMA] cells :: rest)
  = OK (Some (cells, rest)).
Proof.
  intros Hline Hall.
  assert (Hne : cells <> []) by (intros ->; now apply Hline).
  pose proof (process_joined_cells cells [] Hne Hall) as H.
  assert (Hnl : Forall (fun c => Csv.is_newline c = false)
                  (join [COMMA] cells)).
  { apply join_Forall; [repeat constructor|].
    eapply Forall_impl; [|exact Hall]. intros cell [Hc _].
    eapply Forall_impl; [|exact Hc]. intros c Hfc.
    now destruct (field_char_tests c Hfc). }
  destruct (join [COMMA] cells) as [|c line] eqn:Hj; [congruence|].
  inversion Hnl as [|? ? Hc _]; subst.
  assert (Hfirst : Csv.process_line Csv.parse_reset (c :: line)
                   = Csv.process_line
                       (Csv.mkReader Csv.START_FIELD [] [] 0) (c :: line)).
  { assert (Hchar : Csv.parse_process_char Csv.parse_reset (Csv.Chr c)
                    = Csv.parse_process_char
                        (Csv.mkReader Csv.START_FIELD [] [] 0) (Csv.Chr c)).
    { unfold Csv.parse_process_char. simpl. now rewrite Hc. }
    simpl Csv.process_line. now rewrite Hchar. }
  cbn [Csv.read_record]. rewrite Hfirst.
  destruct (Csv.process_line (Csv.mkReader Csv.START_FIELD [] [] 0)
              (c :: line)) as [r1|]; cbn [Py.bind] in H |- *; [|discriminate].
  rewrite H. reflexivity.
Qed.

Lemma reader_list_joined_rows (rows : list (list str)) :
  Forall (fun row =>
            join [COMMA] row <> []
            /\ Forall (fun cell =>
                         Forall field_char cell
                         /\ (N.of_nat (length cell) <= Csv.field_limit)%N)
                 row)
    rows ->
  Csv.reader_list (List.map (join [COMMA]) rows) = OK rows.
Proof.
  induction 1 as [|row rows [Hline Hrow] _ IH].
  - apply reader_list_nil.
  - rewrite reader_list_unfold. simpl List.map.
    unfold Csv.Reader_iternext. rewrite read_joined_cells by assumption.
    rewrite IH. reflexivity.
Qed.

(** ** The clipboard text read back *)

Lemma join_snoc (sep : str) (l : list str) (x : str) :
  join sep (l ++ [x])
  = match l with [] => x | _ :: _ => join sep l ++ sep ++ x end.
Proof.
  induction l as [|y l IH]; [reflexivity|].
  destruct l as [|z l]; [reflexivity|].
  change (join sep ((y :: z :: l) ++ [x]))
    with (y ++ sep ++ join sep ((z :: l) ++ [x])).
  rewrite IH.
  change (join sep (y :: z :: l)) with (y ++ sep ++ join sep (z :: l)).
  now rewrite <- !app_assoc.
Qed.

Lemma rev_join (sep : str) (l : list str) :
  rev (join sep l) = join (rev sep) (rev (List.map (@rev char) l)).
Proof.
  induction l as [|x l IH]; [reflexivity|].
  destruct l as [|y l]; [reflexivity|].
  change (join sep (x :: y :: l)) with (x ++ sep ++ join sep (y :: l)).
  rewrite !rev_app_distr, IH.
  change (rev (List.map (@rev char) (x :: y :: l)))
    with (rev (List.map (@rev char) (y :: l)) ++ [rev x]).
  rewrite join_snoc.
  destruct (rev (List.map (@rev char) (y :: l))) eqn:E.
  - apply (f_equal (@length _)) in E. rewrite length_rev in E. discriminate.
  - now rewrite <- app_assoc.
Qed.

Lemma lstrip_join (l : list str) :
  Forall (fun x => lstrip x = x) l ->
  lstrip (join [COMMA] l) = join [COMMA] l.
Proof.
  intros Hl. apply lstrip_fixed.
  destruct Hl as [|x l Hx _]; [exact I|].
  apply lstrip_fixed in Hx.
  destruct l as [|y l]; [exact Hx|].
  change (join [COMMA] (x :: y :: l))
    with (x ++ COMMA :: join [COMMA] (y :: l)).
  destruct x; [reflexivity | exact Hx].
Qed.

Lemma strip_join (l : list str) :
  Forall (fun x => strip x = x) l ->
  strip (join [COMMA] l) = join [COMMA] l.
Proof.
  intros Hl. apply strip_fixed. split.
  - apply lstrip_join. eapply Forall_impl; [|exact Hl].
    intros x Hx. now apply strip_fixed in Hx.
  - rewrite rev_join. apply lstrip_join.
    apply Forall_rev, Forall_map. eapply Forall_impl; [|exact Hl].
    intros x Hx. now apply strip_fixed in Hx.
Qed.

Lemma startswith_nil (s : str) : startswith s [] = true.
Proof. now destruct s. Qed.

Lemma startswith_join (x : str) (l : list str) :
  startswith (join [COMMA] (x :: l)) fence = startswith x fence.
Proof.
  destruct l as [|y l]; [reflexivity|].
  change (join [COMMA] (x :: y :: l))
    with (x ++ COMMA :: join [COMMA] (y :: l)).
  destruct x as [|a [|b [|c x]]]; simpl; rewrite ?startswith_nil;
    try reflexivity;
    repeat match goal with
      | |- context [N.eqb ?u BACKTICK] =>
          is_var u; destruct (N.eqb u BACKTICK)
      end; reflexivity.
Qed.

Lemma join_nil (l : list str) :
  join [COMMA] l = [] -> l = [] \/ l = [[]].
Proof.
  destruct l as [|x [|y l]]; simpl; auto.
  - intros ->. now right.
  - intros H. apply (f_equal (@length _)) in H.
    rewrite length_app in H. simpl in H. lia.
Qed.

Lemma filter_map_swap {A B} (f : A -> B) (k : B -> bool) (l : list A) :
  filter k (List.map f l) = List.map f (filter (fun x => k (f x)) l).
Proof.
  induction l as [|x l IH]; [reflexivity|]. simpl.
  destruct (k (f x)); simpl; now rewrite IH.
Qed.

Lemma filter_filter_implied {A} (f g : A -> bool) (l : list A) :
  (forall x, In x l -> f x = true -> g x = true) ->
  filter f (filter g l) = filter f l.
Proof.
  intros Himp. induction l as [|x l IH]; [reflexivity|]. simpl.
  assert (IH' : filter f (filter g l) = filter f l).
  { apply IH. intros y Hy. apply Himp. now right. }
  destruct (g x) eqn:Hg; simpl.
  - now rewrite IH'.
  - destruct (f x) eqn:Hf; [|exact IH'].
    apply Himp in Hf; [congruence | now left].
Qed.

Lemma parse_csv_clipboard_text (rows : list (list str)) :
  Forall (fun row => Forall plain_cell row
                     /\ startswith (hd [] row) fence = false)
    rows ->
  parse_csv (clipboard_text rows) = OK (filter has_content rows).
Proof.
  intros Hrows. unfold parse_csv, clipboard_text.
  assert (Hchar : forall c, field_char c -> islinebreak c = false)
    by (intros c H; apply H).
  rewrite normalized_lines_of_join.
  2:{ apply Forall_map. eapply Forall_impl; [|exact Hrows].
      intros row [Hrow _]. apply join_Forall; [repeat constructor|].
      eapply Forall_impl; [|exact Hrow]. intros cell (Hc & _ & _).
      eapply Forall_impl; [exact Hchar | exact Hc]. }
  rewrite List.map_map.
  rewrite (List.map_ext_in (fun row => strip (join [COMMA] row))
             (join [COMMA])).
  2:{ intros row Hin. rewrite Forall_forall in Hrows.
      destruct (Hrows row Hin) as [Hrow _]. apply strip_join.
      eapply Forall_impl; [|exact Hrow]. now intros cell (_ & Hs & _). }
  rewrite filter_map_swap. unfold parse_csv_rows.
  rewrite reader_list_joined_rows.
  2:{ apply Forall_forall. intros row Hin. apply filter_In in Hin.
      destruct Hin as [Hin Hk]. rewrite Forall_forall in Hrows.
      destruct (Hrows row Hin) as [Hrow _]. split.
      - intros E. unfold dropped in Hk. now rewrite E in Hk.
      - eapply Forall_impl; [|exact Hrow].
        now intros cell (Hc & _ & Hlen). }
  simpl. f_equal. apply filter_filter_implied.
  intros row Hin Hc. apply negb_true_iff. unfold dropped.
  apply orb_false_iff. split.
  - apply negb_false_iff, truthy_true. intros E.
    apply join_nil in E. destruct E as [-> | ->]; discriminate Hc.
  - destruct row as [|x l]; [discriminate Hc|].
    rewrite startswith_join.
    rewrite Forall_forall in Hrows. exact (proj2 (Hrows _ Hin)).
Qed.

(** X12: the text that [save_and_copy] puts on the clipboard is read
    back by [parse_csv] as the table it was made of, but for the rows
    without content, when no cell needs quoting (no comma, double quote
    or line break), no cell has white space at an end, and no row
    begins with the fence marker.  A table whose rows all have content,
    as every table that [parse_csv] returns, is read back as it is. *)
Theorem clipboard_text_is_read_back (rows : list (list str)) :
  Forall (fun row => Forall plain_cell row
                     /\ startswith (hd [] row) fence = false)
    rows ->
  parse_csv (clipboard_text rows) = OK (filter has_content rows)
  /\ (Forall (fun row => has_content row = true) rows ->
      parse_csv (clipboard_text rows) = OK rows).
Proof.
  intros Hrows. pose proof (parse_csv_clipboard_text rows Hrows) as H.
  split; [exact H|]. intros Hc. rewrite H. f_equal.
  apply forallb_filter_id, forallb_forall.
  now apply Forall_forall.
Qed.

(** The instance of X12 on the table [[Name, Age], [Bob, empty]]. *)
Lemma clipboard_text_is_read_back_witness :
  let rows := [[lit "Name"; lit "Age"]; [lit "Bob"; []]] in
  parse_csv (clipboard_text rows) = OK (filter has_content rows)
  /\ (Forall (fun row => has_content row = true) rows ->
      parse_csv (clipboard_text rows) = OK rows).
Proof.
  apply (clipboard_text_is_read_back
           [[lit "Name"; lit "Age"]; [lit "Bob"; []]]).
  assert (Hcell : forall s,
             forallb (fun c => negb (N.eqb c COMMA) && negb (N.eqb c DQUOTE)
                               && negb (islinebreak c)) s = true ->
             strip s = s ->
             (N.of_nat (length s) <= Csv.field_limit)%N ->
             plain_cell s).
  { intros s Hs Hstrip Hlen. split; [|split; assumption].
    apply Forall_forall. intros c Hin.
    rewrite forallb_forall in Hs. specialize (Hs c Hin).
    rewrite !andb_true_iff, !negb_true_iff, !N.eqb_neq in Hs.
    unfold field_char. tauto. }
  repeat (apply Forall_cons;
          [split;
           [repeat (apply Forall_cons;
                    [apply Hcell;
                     [reflexivity | reflexivity | vm_compute; discriminate]|]);
            apply Forall_nil
           | reflexivity]|]).
  apply Forall_nil.
Defined.


(** ** Texts without quotes *)

Lemma join_split_from (sep : char) (s cur : str) :
  join [sep] (split_from cur sep s) = rev cur ++ s.
Proof.
  revert cur. induction s as [|c s IH]; intros cur; simpl.
  - now rewrite app_nil_r.
  - destruct (N.eqb_spec c sep) as [-> | Hne].
    + specialize (IH []). simpl in IH.
      destruct (split_from [] sep s) as [|x xs] eqn:E.
      * destruct s as [|c s]; simpl in E; [discriminate|].
        destruct (N.eqb c sep); discriminate.
      * change (join [sep] (rev cur :: x :: xs))
          with (rev cur ++ sep :: join [sep] (x :: xs)).
        now rewrite IH.
    + rewrite IH. simpl. now rewrite <- app_assoc.
Qed.

Lemma split_from_sound (P : char -> Prop) (sep : char) (s cur : str) :
  Forall (fun c => P c /\ c <> sep) cur -> Forall P s ->
  Forall (fun cell => Forall (fun c => P c /\ c <> sep) cell
                      /\ length cell <= length cur + length s)
    (split_from cur sep s).
Proof.
  revert cur. induction s as [|c s IH]; intros cur Hcur Hs; simpl.
  - constructor; [|constructor]. split; [now apply Forall_rev|].
    rewrite length_rev. lia.
  - inversion Hs as [|? ? Hc Hs']; subst.
    destruct (N.eqb_spec c sep) as [-> | Hne].
    + constructor.
      * split; [now apply Forall_rev | rewrite length_rev; lia].
      * eapply Forall_impl; [|apply (IH []); [constructor | exact Hs']].
        intros cell [Hcell Hlen]. split; [exact Hcell | simpl in *; lia].
    + eapply Forall_impl; [|apply (IH (c :: cur)); [|exact Hs']].
      * intros cell [Hcell Hlen]. split; [exact Hcell | simpl in *; lia].
      * constructor; [split; assumption | exact Hcur].
Qed.

Lemma splitlines_from_Forall (P : char -> Prop) (s cur : str) :
  Forall P cur -> Forall P s ->
  Forall (Forall P) (splitlines_from cur s).
Proof.
  remember (length s) as n eqn:Hn.
  revert s cur Hn. induction n as [n IH] using lt_wf_ind.
  intros [|c rest] cur -> Hcur Hs; simpl.
  - destruct cur as [|c cur']; [constructor|].
    constructor; [|constructor].
    change (rev cur' ++ [c]) with (rev (c :: cur')). now apply Forall_rev.
  - inversion Hs as [|? ? Hc Hrest]; subst.
    destruct (islinebreak c).
    + constructor; [now apply Forall_rev|].
      assert (Hrec : forall s', length s' <= length rest -> Forall P s' ->
                                Forall (Forall P) (splitlines_from [] s')).
      { intros s' Hle Hs'.
        apply (IH (length s')); [simpl; lia | reflexivity | constructor
                                | exact Hs']. }
      destruct rest as [|c' rest']; [apply Hrec; [lia | constructor]|].
      destruct (N.eqb c CR && N.eqb c' LF).
      * apply Hrec; [simpl; lia | now inversion Hrest].
      * apply Hrec; [lia | exact Hrest].
    + apply (IH (length rest)); [simpl; lia | reflexivity | | exact Hrest].
      now constructor.
Qed.

Lemma parse_csv_lines_Forall (P : char -> Prop) (csv_text : str) :
  Forall P csv_text -> Forall (Forall P) (parse_csv_lines csv_text).
Proof.
  intros H. rewrite normalized_lines_spec. apply Forall_forall.
  intros line Hin. apply filter_In in Hin. destruct Hin as [Hin _].
  apply in_map_iff in Hin. destruct Hin as (raw & <- & Hraw).
  apply strip_Forall.
  pose proof (splitlines_from_Forall P csv_text [] (Forall_nil _) H) as HF.
  rewrite Forall_forall in HF. now apply HF.
Qed.

Lemma concat_member_length (l : list str) (x : str) :
  In x l -> length x <= length (concat l).
Proof.
  induction l as [|y l IH]; simpl; [tauto|].
  rewrite length_app. intros [-> | Hin]; [lia|]. apply IH in Hin. lia.
Qed.

(** X13: on a text without double quotes that is no longer than the
    field size limit, every line that the normalizer keeps makes one
    row, the line split at its commas; the rows without content are
    then dropped. *)
Theorem text_without_quotes_is_split_at_commas (csv_text : str) :
  ~ In DQUOTE csv_text ->
  (N.of_nat (length csv_text) <= Csv.field_limit)%N ->
  parse_csv csv_text
  = OK (filter has_content
          (List.map (split COMMA) (parse_csv_lines csv_text))).
Proof.
  intros Hq Hlen. unfold parse_csv, parse_csv_rows.
  set (lines := parse_csv_lines csv_text).
  assert (Hjoin : List.map (join [COMMA]) (List.map (split COMMA) lines)
                  = lines).
  { rewrite List.map_map. rewrite <- (List.map_id lines) at 2.
    apply List.map_ext. intros line.
    exact (join_split_from COMMA line []). }
  rewrite <- Hjoin at 1. rewrite reader_list_joined_rows; [reflexivity|].
  apply Forall_map. apply Forall_forall. intros line Hin.
  assert (Hne : line <> []).
  { unfold lines in Hin. rewrite normalized_lines_spec in Hin.
    apply filter_In in Hin. destruct Hin as [_ Hk]. intros ->.
    discriminate Hk. }
  assert (Hchars : Forall (fun c => c <> DQUOTE /\ islinebreak c = false)
                     line).
  { destruct (proj1 (Forall_forall _ _)
                (normalized_lines_are_stripped_aux csv_text) line Hin)
      as [_ Hb].
    assert (Hnoq : Forall (fun c => c <> DQUOTE) line).
    { refine (proj1 (Forall_forall _ _)
                (parse_csv_lines_Forall (fun c => c <> DQUOTE) csv_text _)
                line Hin).
      apply Forall_forall. intros c Hc ->. now apply Hq. }
    apply Forall_forall. intros c Hc. rewrite Forall_forall in Hb, Hnoq.
    split; auto. }
  assert (Hsize : length line <= length csv_text).
  { etransitivity; [apply (concat_member_length lines line Hin)|].
    apply parse_csv_lines_sound. }
  split.
  - unfold split. rewrite join_split_from. exact Hne.
  - eapply Forall_impl;
      [|exact (split_from_sound _ COMMA line [] (Forall_nil _) Hchars)].
    intros cell [Hcell Hl]. split.
    + eapply Forall_impl; [|exact Hcell].
      intros c [[Hcq Hcb] Hcc]. unfold field_char. tauto.
    + simpl in Hl. clear - Hl Hsize Hlen. lia.
Qed.

(** The instance of X13 on the text of the lines [a,b] and [c]. *)
Lemma text_without_quotes_is_split_at_commas_witness :
  parse_csv (lit "a,b" ++ [LF] ++ lit "c")
  = OK (filter has_content
          (List.map (split COMMA)
             (parse_csv_lines (lit "a,b" ++ [LF] ++ lit "c")))).
Proof.
  apply (text_without_quotes_is_split_at_commas
           (lit "a,b" ++ [LF] ++ lit "c")).
  - simpl. intuition discriminate.
  - vm_compute. discriminate.
Defined.

(** ** Runs *)

Lemma observe_bind_cases {R S : Type} (t : itree Ui.uiE R)
  (k : R -> itree Ui.uiE S) :
  observe (ITree.bind t k)
  = match observe t with
    | RetF r => observe (k r)
    | TauF t' => TauF (ITree.bind t' k)
    | VisF e ke => VisF e (fun x => ITree.bind (ke x) k)
    end.
Proof. rewrite observe_bind. now destruct (observe t). Qed.

Lemma runs_observe (o : answers) {R : Type} (t t' : itree Ui.uiE R)
  (calls : list call) (r : R) :
  observe t = observe t' -> runs o t calls r -> runs o t' calls r.
Proof.
  intros Heq H. destruct H as [t r H | t t1 calls r H H1 | t X e k calls r H H1];
    rewrite Heq in H.
  - now apply runs_Ret.
  - now apply runs_Tau with t1.
  - now apply runs_Vis with k.
Qed.

Lemma runs_ret (o : answers) {R : Type} (r : R) : runs o (Ret r) [] r.
Proof. now apply runs_Ret. Qed.

Lemma runs_bind (o : answers) {R S : Type} (t : itree Ui.uiE R)
  (k : R -> itree Ui.uiE S) (calls1 calls2 : list call) (x : R) (r : S) :
  runs o t calls1 x -> runs o (k x) calls2 r ->
  runs o (ITree.bind t k) (calls1 ++ calls2) r.
Proof.
  intros H1 H2.
  induction H1 as [t x H | t t1 calls1 x H _ IH | t X e ke calls1 x H _ IH].
  - apply runs_observe with (k x); [|exact H2].
    now rewrite observe_bind_cases, H.
  - apply runs_Tau with (ITree.bind t1 k); [|now apply IH].
    now rewrite observe_bind_cases, H.
  - simpl. apply runs_Vis with (fun x => ITree.bind (ke x) k); [|now apply IH].
    now rewrite observe_bind_cases, H.
Qed.

Lemma runs_trigger_bind (o : answers) {X S : Type} (e : Ui.uiE X)
  (k : X -> itree Ui.uiE S) (calls : list call) (r : S) :
  runs o (k (o X e)) calls r ->
  runs o (ITree.bind (ITree.trigger e) k) (Call e :: calls) r.
Proof.
  intros H. apply runs_Vis with (fun x => ITree.bind (Ret x) k);
    [reflexivity|].
  apply runs_observe with (k (o X e)); [reflexivity | exact H].
Qed.

Lemma runs_trigger (o : answers) {X : Type} (e : Ui.uiE X) :
  runs o (ITree.trigger e) [Call e] (o X e).
Proof.
  apply runs_Vis with (fun x => Ret x); [reflexivity | apply runs_ret].
Qed.

Lemma runs_trigger_unit (o : answers) (e : Ui.uiE unit) :
  runs o (ITree.trigger e) [Call e] tt.
Proof. pose proof (runs_trigger o e) as H. now destruct (o unit e). Qed.

Lemma runs_deterministic (o : answers) {R : Type} (t : itree Ui.uiE R)
  (calls calls' : list call) (r r' : R) :
  runs o t calls r -> runs o t calls' r' -> calls = calls' /\ r = r'.
Proof.
  intros H. revert calls' r'.
  induction H as [t r H | t t1 calls r H _ IH | t X e k calls r H _ IH];
    intros calls' r' H'; destruct H' as [t r' H' | t t1' calls' r' H' H1'
                                         | t X' e' k' calls' r' H' H1'];
    rewrite H in H'; try discriminate H'.
  - injection H' as <-. now split.
  - injection H' as <-. now apply IH.
  - inversion H' as [[HX He Hk]]. subst X'.
    apply Eqdep.EqdepTheory.inj_pair2 in He, Hk. subst e' k'.
    destruct (IH _ _ H1') as [-> ->]. now split.
Qed.

(** *** Calls inside [try] *)

Lemma runs_try_ok (o : answers) {A B : Type} (t : itree Ui.uiE (result A))
  (k : A -> itree Ui.uiE (result B)) (calls1 calls2 : list call)
  (x : A) (r : result B) :
  runs o t calls1 (OK x) -> runs o (k x) calls2 r ->
  runs o (Ui.try_bind t k) (calls1 ++ calls2) r.
Proof.
  intros H1 H2. unfold Ui.try_bind. now apply runs_bind with (OK x).
Qed.

Lemma runs_try_raise (o : answers) {A B : Type}
  (t : itree Ui.uiE (result A)) (k : A -> itree Ui.uiE (result B))
  (calls : list call) (e : exn) :
  runs o t calls (Raise e) -> runs o (Ui.try_bind t k) calls (Raise e).
Proof.
  intros H. unfold Ui.try_bind. rewrite <- (app_nil_r calls).
  apply runs_bind with (Raise e); [exact H | apply runs_ret].
Qed.

Lemma runs_for_each_ok (o : answers) {A : Type} (l : list A)
  (body : A -> itree Ui.uiE (result unit)) (calls : A -> list call) :
  (forall x, In x l -> runs o (body x) (calls x) (OK tt)) ->
  runs o (Ui.for_each l body) (flat_map calls l) (OK tt).
Proof.
  induction l as [|x l IH]; intros Hbody; simpl.
  - apply runs_ret.
  - apply runs_try_ok with tt; [apply Hbody; now left|].
    apply IH. intros y Hy. apply Hbody. now right.
Qed.

Lemma raised_by_app_l (o : answers) (calls1 calls2 : list call) (e : exn) :
  raised_by o calls1 e -> raised_by o (calls1 ++ calls2) e.
Proof.
  intros [(X & ev & Hin & Hev) | H]; [|now right].
  left. exists X, ev. split; [apply in_or_app; now left | exact Hev].
Qed.

Lemma raised_by_app_r (o : answers) (calls1 calls2 : list call) (e : exn) :
  raised_by o calls2 e -> raised_by o (calls1 ++ calls2) e.
Proof.
  intros [(X & ev & Hin & Hev) | H]; [|now right].
  left. exists X, ev. split; [apply in_or_app; now right | exact Hev].
Qed.

Lemma completes_call (o : answers) (ev : Ui.uiE (result unit)) :
  completes o (ITree.trigger ev).
Proof.
  exists [Call ev], (o _ ev). split; [apply runs_trigger|].
  intros e He. left. exists unit, ev. split; [now left | exact He].
Qed.

Lemma completes_try_bind (o : answers) {A : Type}
  (t : itree Ui.uiE (result A)) (k : A -> itree Ui.uiE (result unit))
  (calls : list call) (r : result A) :
  runs o t calls r ->
  (forall e, r = Raise e -> raised_by o calls e) ->
  (forall x, r = OK x -> completes o (k x)) ->
  completes o (Ui.try_bind t k).
Proof.
  intros Hrun Hraise Hk. destruct r as [x|e].
  - destruct (Hk x eq_refl) as (calls2 & r2 & Hrun2 & Hraise2).
    exists (calls ++ calls2), r2.
    split; [now apply runs_try_ok with x|].
    intros e He. now apply raised_by_app_r, Hraise2.
  - exists calls, (Raise e). split; [now apply runs_try_raise|].
    intros e' [= <-]. now apply Hraise.
Qed.

Lemma completes_then (o : answers)
  (t : itree Ui.uiE (result unit)) (k : unit -> itree Ui.uiE (result unit)) :
  completes o t -> (forall x, completes o (k x)) ->
  completes o (Ui.try_bind t k).
Proof.
  intros (calls & r & Hrun & Hraise) Hk.
  apply completes_try_bind with calls r; auto.
Qed.

Lemma completes_for_each (o : answers) {A : Type} (l : list A)
  (body : A -> itree Ui.uiE (result unit)) :
  (forall x, completes o (body x)) -> completes o (Ui.for_each l body).
Proof.
  intros Hbody. induction l as [|x l IH]; simpl.
  - exists [], (OK tt). split; [apply runs_ret | discriminate].
  - apply completes_then; [apply Hbody | intros _; exact IH].
Qed.

(** The window part of lines 140-146 runs to its end, whatever the
    widgets answer. *)
Lemma completes_show (o : answers) (selected : list str)
  (filtered : list (list str)) (save_path : str) :
  completes o
    (Ui.try_bind (Ui.widget (Ui.table_config selected)) (fun _ =>
     Ui.try_bind
       (Ui.for_each selected
          (fun c =>
             Ui.try_bind (Ui.widget (Ui.table_heading c c)) (fun _ =>
             Ui.widget (Ui.table_column c 120))))
       (fun _ =>
     Ui.try_bind
       (Ui.for_each (skipn 1 filtered)
          (fun r => Ui.widget (Ui.table_insert r)))
       (fun _ =>
     Ui.widget (Ui.set_status (Ui.done_msg save_path)))))).
Proof.
  apply completes_then; [apply completes_call | intros _].
  apply completes_then.
  - apply completes_for_each. intros c.
    apply completes_then; [apply completes_call | intros _].
    apply completes_call.
  - intros _. apply completes_then.
    + apply completes_for_each. intros r. apply completes_call.
    + intros _. apply completes_call.
Qed.

(** *** The steps after the model's answer *)

Section Steps.

Variable o : answers.
Variables csv_raw img_path : str.

Lemma steps_parse_error (e : exn) :
  parse_csv csv_raw = Raise e ->
  runs o (Ui.extraction_steps csv_raw img_path) [] (Raise e).
Proof.
  intros H. unfold Ui.extraction_steps. rewrite H. apply runs_ret.
Qed.

Lemma steps_no_rows :
  parse_csv csv_raw = OK [] ->
  runs o (Ui.extraction_steps csv_raw img_path) []
    (Raise (ValueError Ui.no_rows_msg)).
Proof.
  intros H. unfold Ui.extraction_steps. rewrite H. apply runs_ret.
Qed.

Variable headers : list str.
Variable data : list (list str).
Hypothesis Hparse : parse_csv csv_raw = OK (headers :: data).

Lemma steps_choice (r : result (list str)) (calls : list call)
  (res : result unit) :
  o _ (Ui.choose_headers headers (firstn 5 data)) = r ->
  runs o
    match r with
    | OK [] => Ret (Raise (ValueError Ui.no_columns_msg))
    | OK selected =>
        Ui.save_and_show selected
          (filtered_rows (column_indices headers selected) (headers :: data))
          img_path
    | Raise e => Ret (Raise e)
    end calls res ->
  runs o (Ui.extraction_steps csv_raw img_path)
    (Call (Ui.choose_headers headers (firstn 5 data)) :: calls) res.
Proof.
  intros Hr Hrun. unfold Ui.extraction_steps. rewrite Hparse.
  change (slice 1 6 (headers :: data)) with (firstn 5 data).
  unfold Ui.try_bind. apply runs_trigger_bind. rewrite Hr.
  destruct r as [[|s sel]|e]; exact Hrun.
Qed.

Lemma steps_choice_error (e : exn) :
  o _ (Ui.choose_headers headers (firstn 5 data)) = Raise e ->
  runs o (Ui.extraction_steps csv_raw img_path)
    [Call (Ui.choose_headers headers (firstn 5 data))] (Raise e).
Proof.
  intros H. apply steps_choice with (Raise e); [exact H | apply runs_ret].
Qed.

Lemma steps_no_columns :
  o _ (Ui.choose_headers headers (firstn 5 data)) = OK [] ->
  runs o (Ui.extraction_steps csv_raw img_path)
    [Call (Ui.choose_headers headers (firstn 5 data))]
    (Raise (ValueError Ui.no_columns_msg)).
Proof.
  intros H. apply steps_choice with (OK []); [exact H | apply runs_ret].
Qed.

Variable selected : list str.
Hypothesis Hchoice :
  o _ (Ui.choose_headers headers (firstn 5 data)) = OK selected.
Hypothesis Hselected : selected <> [].

Abbreviation table :=
  (filtered_rows (column_indices headers selected) (headers :: data)).

Lemma steps_save_and_show (calls : list call) (res : result unit) :
  runs o (Ui.save_and_show selected table img_path) calls res ->
  runs o (Ui.extraction_steps csv_raw img_path)
    (Call (Ui.choose_headers headers (firstn 5 data)) :: calls) res.
Proof.
  intros Hrun. apply steps_choice with (OK selected); [exact Hchoice|].
  destruct selected as [|s sel]; [congruence | exact Hrun].
Qed.

Lemma steps_save_error (e : exn) :
  o _ (Ui.save_and_copy table img_path) = Raise e ->
  runs o (Ui.extraction_steps csv_raw img_path)
    [Call (Ui.choose_headers headers (firstn 5 data));
     Call (Ui.save_and_copy table img_path)]
    (Raise e).
Proof.
  intros Hsave. apply steps_save_and_show.
  unfold Ui.save_and_show, Ui.try_bind.
  apply runs_trigger_bind. rewrite Hsave. apply runs_ret.
Qed.

Lemma steps_config_error (save_path : str) (e : exn) :
  o _ (Ui.save_and_copy table img_path) = OK save_path ->
  o _ (Ui.in_try (Ui.table_config selected)) = Raise e ->
  runs o (Ui.extraction_steps csv_raw img_path)
    [Call (Ui.choose_headers headers (firstn 5 data));
     Call (Ui.save_and_copy table img_path);
     Call (Ui.in_try (Ui.table_config selected))]
    (Raise e).
Proof.
  intros Hsave Hconfig. apply steps_save_and_show.
  unfold Ui.save_and_show, Ui.try_bind, Ui.widget.
  apply runs_trigger_bind. rewrite Hsave.
  apply runs_trigger_bind. rewrite Hconfig. apply runs_ret.
Qed.

Lemma steps_success (save_path : str) :
  o _ (Ui.save_and_copy table img_path) = OK save_path ->
  o _ (Ui.in_try (Ui.table_config selected)) = OK tt ->
  (forall c, In c selected ->
             o _ (Ui.in_try (Ui.table_heading c c)) = OK tt
             /\ o _ (Ui.in_try (Ui.table_column c 120)) = OK tt) ->
  (forall r, In r (skipn 1 table) ->
             o _ (Ui.in_try (Ui.table_insert r)) = OK tt) ->
  o _ (Ui.in_try (Ui.set_status (Ui.done_msg save_path))) = OK tt ->
  runs o (Ui.extraction_steps csv_raw img_path)
    ([Call (Ui.choose_headers headers (firstn 5 data));
      Call (Ui.save_and_copy table img_path);
      Call (Ui.in_try (Ui.table_config selected))]
       ++ flat_map
            (fun c => [Call (Ui.in_try (Ui.table_heading c c));
                       Call (Ui.in_try (Ui.table_column c 120))])
            selected
       ++ flat_map (fun r => [Call (Ui.in_try (Ui.table_insert r))])
            (skipn 1 table)
       ++ [Call (Ui.in_try (Ui.set_status (Ui.done_msg save_path)))])
    (OK tt).
Proof.
  intros Hsave Hconfig Hhead Hinsert Hstatus. apply steps_save_and_show.
  unfold Ui.save_and_show.
  apply (runs_try_ok o _ _ [_] _ save_path);
    [rewrite <- Hsave; apply runs_trigger|].
  apply (runs_try_ok o _ _ [_] _ tt);
    [rewrite <- Hconfig; apply runs_trigger|].
  apply runs_try_ok with tt.
  - apply runs_for_each_ok. intros c Hc. destruct (Hhead c Hc) as [H1 H2].
    apply (runs_try_ok o _ _ [_] [_] tt);
      [rewrite <- H1 | rewrite <- H2]; apply runs_trigger.
  - apply runs_try_ok with tt.
    + apply runs_for_each_ok. intros r Hr.
      rewrite <- (Hinsert r Hr). apply runs_trigger.
    + rewrite <- Hstatus. apply runs_trigger.
Qed.

End Steps.

(** *** The [try] block, the handler and the [finally] block *)

Lemma try_block_read_error (o : answers) (img_path : str) (e : exn) :
  o _ (Ui.read_file img_path) = Raise e ->
  runs o (Ui.try_block img_path) [Call (Ui.read_file img_path)] (Raise e).
Proof.
  intros H. unfold Ui.try_block, Ui.try_bind.
  apply runs_trigger_bind. rewrite H. apply runs_ret.
Qed.

Lemma try_block_send_error (o : answers) (img_path : str)
  (bytes_ : Ui.bytes) (e : exn) :
  o _ (Ui.read_file img_path) = OK bytes_ ->
  o _ (Ui.send_to_openai bytes_) = Raise e ->
  runs o (Ui.try_block img_path)
    [Call (Ui.read_file img_path); Call (Ui.send_to_openai bytes_)]
    (Raise e).
Proof.
  intros Hread Hsend. unfold Ui.try_block, Ui.try_bind.
  apply runs_trigger_bind. rewrite Hread.
  apply runs_trigger_bind. rewrite Hsend. apply runs_ret.
Qed.

Lemma try_block_steps (o : answers) (img_path : str) (bytes_ : Ui.bytes)
  (csv_raw : str) (calls : list call) (r : result unit) :
  o _ (Ui.read_file img_path) = OK bytes_ ->
  o _ (Ui.send_to_openai bytes_) = OK csv_raw ->
  runs o (Ui.extraction_steps csv_raw img_path) calls r ->
  runs o (Ui.try_block img_path)
    (Call (Ui.read_file img_path) :: Call (Ui.send_to_openai bytes_) :: calls)
    r.
Proof.
  intros Hread Hsend Hsteps. unfold Ui.try_block, Ui.try_bind.
  apply runs_trigger_bind. rewrite Hread.
  apply runs_trigger_bind. rewrite Hsend. exact Hsteps.
Qed.

Lemma after_try_ok (o : answers) (u : unit) :
  runs o (Ui.after_try (OK u))
    [Call Ui.progress_stop; Call Ui.progress_place_forget] tt.
Proof.
  unfold Ui.after_try.
  apply (runs_bind o _ _ [] _ tt); [apply runs_ret|].
  apply runs_trigger_bind, runs_trigger_unit.
Qed.

Lemma after_try_raise (o : answers) (e : exn) :
  runs o (Ui.after_try (Raise e)) (failure_calls e) tt.
Proof.
  unfold Ui.after_try, failure_calls.
  apply (runs_bind o _ _ [_; _] [_; _] tt).
  - apply runs_trigger_bind, runs_trigger_unit.
  - apply runs_trigger_bind, runs_trigger_unit.
Qed.

Lemma raised_by_later (o : answers) (c : call) (calls : list call)
  (e : exn) :
  raised_by o calls e -> raised_by o (c :: calls) e.
Proof. apply (raised_by_app_r o [c] calls e). Qed.


(** Whatever the answers, the steps run to their end; an exception
    they end with is one of [raised_by], and the result table is only
    touched after the result was saved. *)
Lemma extraction_steps_total (o : answers) (csv_raw img_path : str) :
  exists calls r,
    runs o (Ui.extraction_steps csv_raw img_path) calls r
    /\ (forall e, r = Raise e -> raised_by o calls e)
    /\ (Forall (fun c => updates_table c = false) calls
        \/ exists prefix table save_path rest,
             calls = prefix ++ Call (Ui.save_and_copy table img_path) :: rest
             /\ Forall (fun c => updates_table c = false) prefix
             /\ o _ (Ui.save_and_copy table img_path) = OK save_path).
Proof.
  pose proof (parse_csv_sound csv_raw) as Hsound.
  destruct (parse_csv csv_raw) as [[|headers data]|e] eqn:Hparse.
  - exists [], (Raise (ValueError Ui.no_rows_msg)).
    split; [now apply steps_no_rows|]. split.
    + intros e [= <-]. right; right; now left.
    + left. constructor.
  - destruct (o _ (Ui.choose_headers headers (firstn 5 data)))
      as [[|s sel]|e] eqn:Hsel.
    + eexists _, _.
      split; [exact (steps_no_columns o _ img_path _ _ Hparse Hsel)|]. split.
      * intros e [= <-]. right; right; now right.
      * left. repeat constructor.
    + set (table := filtered_rows (column_indices headers (s :: sel))
                      (headers :: data)).
      destruct (o _ (Ui.save_and_copy table img_path))
        as [save_path|e] eqn:Hsave.
      * destruct (completes_show o (s :: sel) table save_path)
          as (calls & r & Hrun & Hraise).
        exists (Call (Ui.choose_headers headers (firstn 5 data))
                  :: Call (Ui.save_and_copy table img_path) :: calls), r.
        split; [|split].
        -- apply (steps_save_and_show o _ img_path _ _ Hparse (s :: sel) Hsel
                    ltac:(discriminate)).
           unfold Ui.save_and_show.
           apply (runs_try_ok o _ _ [_] _ save_path);
             [rewrite <- Hsave; apply runs_trigger | exact Hrun].
        -- intros e He. now apply raised_by_later, raised_by_later, Hraise.
        -- right.
           exists [Call (Ui.choose_headers headers (firstn 5 data))],
             table, save_path, calls.
           split; [reflexivity|]. split; [repeat constructor | exact Hsave].
      * eexists _, _. split.
        -- exact (steps_save_error o _ img_path _ _ Hparse (s :: sel) Hsel
                    ltac:(discriminate) e Hsave).
        -- split.
           ++ intros e' [= <-]. left.
              eexists _, _. split; [|exact Hsave]. right. now left.
           ++ left. repeat constructor.
    + eexists _, _.
      split; [exact (steps_choice_error o _ img_path _ _ Hparse e Hsel)|].
      split.
      * intros e' [= <-]. left.
        eexists _, _. split; [|exact Hsel]. now left.
      * left. repeat constructor.
  - exists [], (Raise e). split; [now apply steps_parse_error|]. split.
    + intros e' [= <-]. right; left. apply Hsound.
    + left. constructor.
Qed.

Lemma try_block_total (o : answers) (img_path : str) :
  exists calls r,
    runs o (Ui.try_block img_path) calls r
    /\ (forall e, r = Raise e -> raised_by o calls e)
    /\ (Forall (fun c => updates_table c = false) calls
        \/ exists prefix table save_path rest,
             calls = prefix ++ Call (Ui.save_and_copy table img_path) :: rest
             /\ Forall (fun c => updates_table c = false) prefix
             /\ o _ (Ui.save_and_copy table img_path) = OK save_path).
Proof.
  destruct (o _ (Ui.read_file img_path)) as [bytes_|e] eqn:Hread.
  - destruct (o _ (Ui.send_to_openai bytes_)) as [csv_raw|e] eqn:Hsend.
    + destruct (extraction_steps_total o csv_raw img_path)
        as (calls & r & Hrun & Hraise & Htable).
      eexists _, r.
      split; [exact (try_block_steps o _ _ _ _ _ Hread Hsend Hrun)|]. split.
      * intros e He. now apply raised_by_later, raised_by_later, Hraise.
      * destruct Htable
          as [Hquiet | (prefix & table & save_path & rest & -> & Hquiet & Hs)].
        -- left. now repeat constructor.
        -- right.
           exists (Call (Ui.read_file img_path)
                     :: Call (Ui.send_to_openai bytes_) :: prefix),
             table, save_path, rest.
           split; [reflexivity|]. split; [now repeat constructor | exact Hs].
    + eexists _, _.
      split; [exact (try_block_send_error o _ _ _ Hread Hsend)|]. split.
      * intros e' [= <-]. left.
        eexists _, _. split; [|exact Hsend]. right. now left.
      * left. repeat constructor.
  - eexists _, _. split; [exact (try_block_read_error o _ _ Hread)|]. split.
    + intros e' [= <-]. left.
      eexists _, _. split; [|exact Hread]. now left.
    + left. repeat constructor.
Qed.

Lemma run_extraction_runs (o : answers) (img_path : str)
  (calls : list call) (r : result unit) :
  runs o (Ui.try_block img_path) calls r ->
  runs o (Ui.run_extraction img_path)
    (calls ++ match r with
              | OK _ => [Call Ui.progress_stop; Call Ui.progress_place_forget]
              | Raise e => failure_calls e
              end)
    tt.
Proof.
  intros H. unfold Ui.run_extraction. apply runs_bind with r; [exact H|].
  destruct r; [apply after_try_ok | apply after_try_raise].
Qed.

(** A run in which the window refuses every call of the [try] block:
    the image is read, the model answers, the user ticks every header,
    the result is saved, and the first call on the result table raises
    [exc]. *)
Lemma window_error_run (exc : exn) :
  runs
    (script (OK []) (OK (lit "a,b" ++ [LF] ++ lit "1,2")) (fun h => h)
       (OK (lit "results.csv")) (Some exc))
    (Ui.try_block (lit "table.png"))
    [Call (Ui.read_file (lit "table.png"));
     Call (Ui.send_to_openai []);
     Call (Ui.choose_headers [lit "a"; lit "b"] [[lit "1"; lit "2"]]);
     Call (Ui.save_and_copy [[lit "a"; lit "b"]; [lit "1"; lit "2"]]
             (lit "table.png"));
     Call (Ui.in_try (Ui.table_config [lit "a"; lit "b"]))]
    (Raise exc).
Proof.
  assert (Hparse : parse_csv (lit "a,b" ++ [LF] ++ lit "1,2")
                   = OK [[lit "a"; lit "b"]; [lit "1"; lit "2"]])
    by (vm_compute; reflexivity).
  apply try_block_steps with (csv_raw := lit "a,b" ++ [LF] ++ lit "1,2");
    try reflexivity.
  apply (steps_config_error _ _ _ [lit "a"; lit "b"] [[lit "1"; lit "2"]]
           Hparse [lit "a"; lit "b"] eq_refl ltac:(discriminate)
           (lit "results.csv") exc);
    reflexivity.
Qed.


(** X15: when the image is read, the model answers a text that
    [parse_csv] turns into a table with a header row, the user chooses
    some headers, the result is written and every call on the window
    inside the [try] block returns, [run_extraction] saves the
    projection of the table on the chosen headers, once and before it
    touches the window, sets the columns of the result table to the
    chosen headers, inserts the projected rows but the header row, and
    reports where the result was saved. *)
Theorem successful_extraction_calls
  (o : answers) (img_path : str) (bytes_ : Ui.bytes) (csv_raw : str)
  (headers : list str) (data : list (list str)) (selected : list str)
  (table : list (list str)) (save_path : str) :
  o _ (Ui.read_file img_path) = OK bytes_ ->
  o _ (Ui.send_to_openai bytes_) = OK csv_raw ->
  parse_csv csv_raw = OK (headers :: data) ->
  o _ (Ui.choose_headers headers (firstn 5 data)) = OK selected ->
  selected <> [] ->
  project (headers :: data) selected = OK table ->
  o _ (Ui.save_and_copy table img_path) = OK save_path ->
  o _ (Ui.in_try (Ui.table_config selected)) = OK tt ->
  (forall c, In c selected ->
             o _ (Ui.in_try (Ui.table_heading c c)) = OK tt
             /\ o _ (Ui.in_try (Ui.table_column c 120)) = OK tt) ->
  (forall r, In r (skipn 1 table) ->
             o _ (Ui.in_try (Ui.table_insert r)) = OK tt) ->
  o _ (Ui.in_try (Ui.set_status (Ui.done_msg save_path))) = OK tt ->
  runs o (Ui.run_extraction img_path)
    (success_calls img_path bytes_ headers data selected table save_path) tt.
Proof.
  intros Hread Hsend Hparse Hsel Hne Hproj Hsave Hconfig Hhead Hinsert
    Hstatus.
  unfold project in Hproj. injection Hproj as <-.
  pose proof (steps_success o csv_raw img_path headers data Hparse
                selected Hsel Hne save_path Hsave Hconfig Hhead Hinsert
                Hstatus) as Hsteps.
  pose proof (try_block_steps o _ _ _ _ _ Hread Hsend Hsteps) as Htry.
  pose proof (run_extraction_runs o _ _ _ Htry) as Hrun.
  unfold success_calls. simpl in Hrun |- *.
  rewrite <- !app_assoc in Hrun. exact Hrun.
Qed.

(** The instance of X15 on a model answer of two lines, with every
    header chosen and a window that accepts every call. *)
Lemma successful_extraction_calls_witness :
  runs
    (scripted (OK []) (OK (lit "a,b" ++ [LF] ++ lit "1,2")) (fun h => h)
       (OK (lit "results.csv")))
    (Ui.run_extraction (lit "table.png"))
    (success_calls (lit "table.png") [] [lit "a"; lit "b"]
       [[lit "1"; lit "2"]] [lit "a"; lit "b"]
       [[lit "a"; lit "b"]; [lit "1"; lit "2"]] (lit "results.csv"))
    tt.
Proof.
  apply (successful_extraction_calls
           (scripted (OK []) (OK (lit "a,b" ++ [LF] ++ lit "1,2"))
              (fun h => h) (OK (lit "results.csv")))
           (lit "table.png") [] (lit "a,b" ++ [LF] ++ lit "1,2")
           [lit "a"; lit "b"] [[lit "1"; lit "2"]] [lit "a"; lit "b"]
           [[lit "a"; lit "b"]; [lit "1"; lit "2"]] (lit "results.csv"));
    try reflexivity.
  - discriminate.
  - intros c _. split; reflexivity.
Defined.



(** X17: when the user ticks no header, [run_extraction] saves nothing
    and reports the [ValueError] of line 135: after the choice of the
    headers its calls are those of the handler and of the [finally]
    block. *)
Theorem no_column_selected_saves_nothing
  (o : answers) (img_path : str) (bytes_ : Ui.bytes) (csv_raw : str)
  (headers : list str) (data : list (list str)) :
  o _ (Ui.read_file img_path) = OK bytes_ ->
  o _ (Ui.send_to_openai bytes_) = OK csv_raw ->
  parse_csv csv_raw = OK (headers :: data) ->
  o _ (Ui.choose_headers headers (firstn 5 data)) = OK [] ->
  runs o (Ui.run_extraction img_path)
    ([Call (Ui.read_file img_path);
      Call (Ui.send_to_openai bytes_);
      Call (Ui.choose_headers headers (firstn 5 data))]
       ++ failure_calls (ValueError Ui.no_columns_msg))
    tt.
Proof.
  intros Hread Hsend Hparse Hsel.
  pose proof (steps_no_columns o csv_raw img_path headers data Hparse Hsel)
    as Hsteps.
  pose proof (try_block_steps o _ _ _ _ _ Hread Hsend Hsteps) as Htry.
  exact (run_extraction_runs o _ _ _ Htry).
Qed.

(** The instance of X17 on a model answer of two lines. *)
Lemma no_column_selected_saves_nothing_witness :
  runs
    (scripted (OK []) (OK (lit "a,b" ++ [LF] ++ lit "1,2")) (fun _ => [])
       (OK []))
    (Ui.run_extraction (lit "table.png"))
    ([Call (Ui.read_file (lit "table.png"));
      Call (Ui.send_to_openai []);
      Call (Ui.choose_headers [lit "a"; lit "b"]
              (firstn 5 [[lit "1"; lit "2"]]))]
       ++ failure_calls (ValueError Ui.no_columns_msg))
    tt.
Proof.
  apply (no_column_selected_saves_nothing
           (scripted (OK []) (OK (lit "a,b" ++ [LF] ++ lit "1,2"))
              (fun _ => []) (OK []))
           (lit "table.png") [] (lit "a,b" ++ [LF] ++ lit "1,2")
           [lit "a"; lit "b"] [[lit "1"; lit "2"]]); reflexivity.
Defined.

(** X18: an exception that ends the [try] block of [run_extraction] is
    the exception of a call made inside it that failed (reading the
    image, asking the model, the dialog of [choose_headers], writing
    the result, or a call on the result table or the status line), the
    field size limit of the csv module, or one of the two [ValueError]
    of [run_extraction]: no rows parsed, no columns selected. *)
Theorem exceptions_of_the_try_block
  (o : answers) (img_path : str) (calls : list call) (e : exn) :
  runs o (Ui.try_block img_path) calls (Raise e) ->
  raised_by o calls e.
Proof.
  intros H.
  destruct (try_block_total o img_path) as (calls0 & r0 & Hrun & Hprop & _).
  destruct (runs_deterministic o _ _ _ _ _ H Hrun) as [-> <-].
  now apply Hprop.
Qed.

(** The instance of X18 on a run in which the window refuses the new
    columns of the result table. *)
Lemma exceptions_of_the_try_block_witness :
  let exc := Exception (lit "invalid command name") in
  raised_by
    (script (OK []) (OK (lit "a,b" ++ [LF] ++ lit "1,2")) (fun h => h)
       (OK (lit "results.csv")) (Some exc))
    [Call (Ui.read_file (lit "table.png"));
     Call (Ui.send_to_openai []);
     Call (Ui.choose_headers [lit "a"; lit "b"] [[lit "1"; lit "2"]]);
     Call (Ui.save_and_copy [[lit "a"; lit "b"]; [lit "1"; lit "2"]]
             (lit "table.png"));
     Call (Ui.in_try (Ui.table_config [lit "a"; lit "b"]))]
    exc.
Proof.
  intros exc.
  apply (exceptions_of_the_try_block _ (lit "table.png") _ exc).
  apply window_error_run.
Defined.

(** ** The characters of the cells *)

Section CellCharacters.

Variable P : char -> Prop.

Abbreviation holds := (made_of P).

Lemma holds_set_state (r : Csv.ReaderObj) (st : Csv.ParserState) :
  holds r -> holds (Csv.set_state st r).
Proof. intros H. exact H. Qed.

Lemma holds_parse_save_field (r : Csv.ReaderObj) :
  holds r -> holds (Csv.parse_save_field r).
Proof.
  intros [Hf Hfs]. split; simpl; [constructor|].
  apply Forall_app. split; [exact Hfs | now constructor].
Qed.

Lemma holds_parse_add_char (r r' : Csv.ReaderObj) (c : char) :
  P c -> holds r -> Csv.parse_add_char r c = OK r' -> holds r'.
Proof.
  intros Hc [Hf Hfs] H. unfold Csv.parse_add_char in H.
  destruct (Csv.field_limit <=? Csv.field_len r)%N; [discriminate|].
  injection H as <-. split; simpl; [|exact Hfs].
  apply Forall_app. split; [exact Hf | now constructor].
Qed.

Lemma holds_parse_process_char (r r' : Csv.ReaderObj) (s : Csv.symbol) :
  match s with Csv.Chr c => P c | Csv.EOL => True end ->
  holds r -> Csv.parse_process_char r s = OK r' -> holds r'.
Proof.
  intros Hs Hr H.
  unfold Csv.parse_process_char, Csv.start_field, Csv.end_record in H.
  destruct (Csv.state r), s as [c|];
    cbn -[Csv.parse_add_char Csv.parse_save_field Csv.set_state] in H;
    repeat match type of H with
      | context [if ?b then _ else _] => destruct b
      | context [Csv.parse_add_char ?r0 ?c0] =>
          let E := fresh "E" in
          destruct (Csv.parse_add_char r0 c0) eqn:E; cbn [Py.bind] in H
      end;
    try discriminate H; injection H as <-;
    repeat first
      [ exact Hr
      | apply holds_parse_save_field
      | eapply holds_parse_add_char; [exact Hs | | eassumption]
      | apply holds_set_state ].
Qed.

Lemma holds_process_line (line : str) (r r' : Csv.ReaderObj) :
  Forall P line -> holds r -> Csv.process_line r line = OK r' -> holds r'.
Proof.
  revert r. induction line as [|c line IH]; intros r Hline Hr H; simpl in H.
  - now injection H as <-.
  - inversion Hline as [|? ? Hc Hline']; subst.
    destruct (Csv.parse_process_char r (Csv.Chr c)) as [r1|] eqn:E;
      [|discriminate].
    apply (IH r1); [exact Hline' | | exact H].
    exact (holds_parse_process_char r r1 (Csv.Chr c) Hc Hr E).
Qed.

Lemma read_record_chars (lines : list str) (r : Csv.ReaderObj)
  (row : list str) (rest : list str) :
  Forall (Forall P) lines -> holds r ->
  Csv.read_record r lines = OK (Some (row, rest)) ->
  Forall (Forall P) row.
Proof.
  revert r. induction lines as [|l lines IH]; intros r Hlines Hr H;
    simpl in H.
  - destruct (Csv.pending r); [|discriminate]. injection H as <- _.
    apply (holds_parse_save_field r Hr).
  - inversion Hlines as [|? ? Hl Hlines']; subst.
    destruct (Csv.process_line r l) as [r1|] eqn:E1; [|discriminate].
    simpl in H.
    destruct (Csv.parse_process_char r1 Csv.EOL) as [r2|] eqn:E2;
      [|discriminate].
    simpl in H.
    assert (H2 : holds r2).
    { apply (holds_parse_process_char r1 r2 Csv.EOL I); [|exact E2].
      exact (holds_process_line l r r1 Hl Hr E1). }
    destruct (Csv.state_eqb (Csv.state r2) Csv.START_RECORD).
    + injection H as <- _. apply H2.
    + exact (IH r2 Hlines' H2 H).
Qed.

Lemma reader_list_chars (lines : list str) (rows : list (list str)) :
  Forall (Forall P) lines ->
  Csv.reader_list lines = OK rows ->
  Forall (Forall (Forall P)) rows.
Proof.
  remember (length lines) as n eqn:Hn.
  revert lines rows Hn. induction n as [n IH] using lt_wf_ind.
  intros lines rows -> Hlines H. rewrite reader_list_unfold in H.
  destruct (Csv.Reader_iternext lines) as [[[row rest]|]|e] eqn:Hnext;
    [| injection H as <-; constructor | discriminate].
  destruct (Reader_iternext_rest _ _ _ Hnext) as (pre & Heq & Hpre).
  destruct (Csv.reader_list rest) as [rows'|] eqn:Hrest; [|discriminate].
  simpl in H. injection H as <-.
  constructor.
  - apply (read_record_chars lines Csv.parse_reset row rest Hlines);
      [split; constructor | exact Hnext].
  - assert (Hlt : length rest < length lines).
    { rewrite Heq, length_app. destruct pre; [congruence | simpl; lia]. }
    apply (IH _ Hlt rest rows' eq_refl); [|exact Hrest].
    rewrite Heq in Hlines. now apply Forall_app in Hlines.
Qed.

End CellCharacters.

(** X19: every character of a cell of the table is a character of the
    text, and none is a line break: a quoted field that runs over
    several lines is joined without the line breaks. *)
Theorem cells_hold_characters_of_the_text
  (csv_text : str) (table : list (list str)) :
  parse_csv csv_text = OK table ->
  Forall (Forall (Forall (fun c => In c csv_text /\ islinebreak c = false)))
    table.
Proof.
  intros H. unfold parse_csv, parse_csv_rows in H.
  destruct (Csv.reader_list (parse_csv_lines csv_text)) as [rows|] eqn:Hr;
    [|discriminate].
  simpl in H. injection H as <-.
  assert (Hrows : Forall (Forall (Forall (fun c => In c csv_text
                                                   /\ islinebreak c = false)))
                    rows).
  { apply (reader_list_chars _ (parse_csv_lines csv_text) rows); [|exact Hr].
    apply Forall_forall. intros line Hin. apply Forall_forall. intros c Hc.
    split.
    - assert (Hall : Forall (fun c => In c csv_text) csv_text)
        by (apply Forall_forall; auto).
      pose proof (parse_csv_lines_Forall _ csv_text Hall) as HF.
      rewrite Forall_forall in HF. specialize (HF line Hin).
      rewrite Forall_forall in HF. now apply HF.
    - pose proof (normalized_lines_are_stripped_aux csv_text) as HF.
      rewrite Forall_forall in HF. destruct (HF line Hin) as [_ Hb].
      rewrite Forall_forall in Hb. now apply Hb. }
  apply Forall_forall. intros row Hin. apply filter_In in Hin.
  rewrite Forall_forall in Hrows. now apply Hrows.
Qed.

(** The instance of X19 on a quoted field that runs over two lines. *)
Lemma cells_hold_characters_of_the_text_witness :
  let raw := lit "Name," ++ [DQUOTE] ++ lit "Age" ++ [LF] ++ lit "1,2" in
  Forall (Forall (Forall (fun c => In c raw /\ islinebreak c = false)))
    [[lit "Name"; lit "Age1,2"]].
Proof.
  apply (cells_hold_characters_of_the_text
           (lit "Name," ++ [DQUOTE] ++ lit "Age" ++ [LF] ++ lit "1,2")
           [[lit "Name"; lit "Age1,2"]]).
  vm_compute. reflexivity.
Defined.
